(** * A Redis storage back end for configurable-http-proxy

    A shallow embedding of [src/lib/cluster.js] and [src/lib/index.js]:
    the cluster connection-string parser, the path helpers and the route
    store (get / add / remove / update / getAll / getTarget / clear) of
    [ConfigurableProxyRedisStorage].  The Redis server is a finite map from
    keys to hashes, a promise is a computation on it that resolves or
    rejects, and every round trip is recorded in a log. *)

From Stdlib Require Import ZArith Ascii String.
From stdpp Require Import base option list strings pretty gmap.

Local Open Scope Z_scope.

(** ** JavaScript strings

    The [String.prototype] methods the sources call, on 8-bit strings.
    Receivers come first, as in [s.split(sep)]. *)
Module JsString.

(** [s.startsWith(pre)] *)
Definition startsWith (s pre : string) : bool := String.prefix pre s.

(** [s.includes(sub)]: [sub] occurs somewhere in [s]. *)
Fixpoint includes (s sub : string) : bool :=
  String.prefix sub s ||
  match s with
  | EmptyString => false
  | String _ t => includes t sub
  end.

(** [s.substring(1)] *)
Definition substring1 (s : string) : string :=
  match s with
  | EmptyString => EmptyString
  | String _ t => t
  end.

(** The pieces of [s] between the occurrences of [sep], scanning from the
    left; [skip] counts the characters of a separator still to be passed
    over.  The piece being read is the head of the result. *)
Fixpoint split_from (sep : string) (skip : nat) (s : string) : list string :=
  match s with
  | EmptyString => [EmptyString]
  | String c t =>
      match skip with
      | S k => split_from sep k t
      | O =>
          if String.prefix sep s
          then EmptyString :: split_from sep (String.length sep - 1) t
          else match split_from sep 0 t with
               | piece :: pieces => String c piece :: pieces
               | [] => [String c EmptyString]
               end
      end
  end.

(** [s.split(sep)] for a non-empty separator [sep]. *)
Definition split (s sep : string) : list string := split_from sep 0 s.

(** [arr.join(sep)] on an array of strings. *)
Definition join (arr : list string) (sep : string) : string :=
  String.concat sep arr.

(** The value of a string of decimal digits, most significant first. *)
Fixpoint digits_value (acc : Z) (s : string) : option Z :=
  match s with
  | EmptyString => Some acc
  | String c t =>
      match Ascii.is_nat c with
      | Some d => digits_value (10 * acc + Z.of_nat d) t
      | None => None
      end
  end.

(** The result of [Number(s)], a double.  A string of decimal digits whose
    value is at most [Number.MAX_SAFE_INTEGER], 2^53 - 1, converts to that
    value (the empty string to 0): a double holds every such integer
    exactly.  Any other string is kept as
    [OtherNumber s] and not evaluated here: JavaScript rounds a longer
    string of digits to the nearest double, gives a number for the other
    literal forms (sign, fraction, exponent, radix prefix, surrounding
    blanks) and NaN for the rest. *)
Inductive number :=
  | Int (n : Z)
  | OtherNumber (source : string).

(** [Number.MAX_SAFE_INTEGER] *)
Definition MAX_SAFE_INTEGER : Z := 2 ^ 53 - 1.

Definition Number (s : string) : number :=
  match digits_value 0 s with
  | Some n => if n <=? MAX_SAFE_INTEGER then Int n else OtherNumber s
  | None => OtherNumber s
  end.

End JsString.

(** ** Exceptions

    A JavaScript computation returns a value or throws.  [Error msg] is a
    plain [new Error(msg)]; the other two are the built-in error classes the
    sources can run into. *)
Inductive js_error :=
  | TypeError
  | SyntaxError
  | Error (msg : string).

Inductive result (A : Type) :=
  | Ok (a : A)
  | Throw (e : js_error).
Arguments Ok {A} a.
Arguments Throw {A} e.

#[export] Instance result_ret : MRet result := @Ok.
#[export] Instance result_bind : MBind result := λ A B f r,
  match r with
  | Ok a => f a
  | Throw e => Throw e
  end.
#[export] Instance result_fmap : FMap result := λ A B f r,
  match r with
  | Ok a => Ok (f a)
  | Throw e => Throw e
  end.

Definition isOk {A} (r : result A) : bool :=
  match r with
  | Ok _ => true
  | Throw _ => false
  end.

(** ** [src/lib/cluster.js] *)
Module Cluster.
Import JsString.

(** One entry of [hosts]: [host.host], and [host.port] when the segment
    has one. *)
Record node := Node {
  host : string;
  port : option number;
}.

(** The object [{ hosts, password }] that [parseURL] returns; [password] is
    [null] ([None]) when the string has no credential. *)
Record cluster_config := ClusterConfig {
  hosts : list node;
  password : option string;
}.

Definition isCluster (url : string) : bool := includes url "cluster://".

(** The body of the [forEach] over the comma-separated segments, for a
    segment that is not empty.  The last case of the [match] is
    [const [ip, port] = h.split(':')] on an array of fewer than two pieces,
    which [h.includes(':')] excludes (see [split_includes]). *)
Definition parseHost (h : string) : node :=
  if includes h ":" then
    match split h ":" with
    | ip :: port :: _ => {| host := ip; port := Some (Number port) |}
    | _ => {| host := h; port := None |}
    end
  else {| host := h; port := None |}.

(** [hosts] after the [forEach]: empty segments are passed over
    ([if (!h) return]), every other segment is pushed in order. *)
Definition parseHosts (url1 : string) : list node :=
  foldl (λ hosts h, if decide (h = "") then hosts else hosts ++ [parseHost h])
        [] (split url1 ",").

(** [parseURL].  [url.split('cluster://')[1]] is [undefined] when the
    marker does not occur, and the call [url1.includes('@')] then throws a
    TypeError.  The [match] on [url1.split('@')] is the destructuring
    [const [p, hh]]; its last case, an array of fewer than two pieces, is
    excluded by [url1.includes('@')]. *)
Definition parseURL (url : string) : result cluster_config :=
  match split url "cluster://" !! 1%nat with
  | None => Throw TypeError
  | Some url1 =>
      if includes url1 "@" then
        match split url1 "@" with
        | p :: hh :: _ =>
            let password := if startsWith p ":" then substring1 p else p in
            Ok {| hosts := parseHosts hh; password := Some password |}
        | _ => Throw TypeError
        end
      else Ok {| hosts := parseHosts url1; password := None |}
  end.

End Cluster.

(** ** The second cluster parser

    The listing of [src/lib/index.js] ends with another version of
    [cluster.js], in which every segment carries its own [password@]
    prefix and [parseURL] returns the bare list of hosts.  There [target]
    stays [null] for a segment without [@], and [target.includes(':')]
    throws a TypeError. *)
Module ClusterPerNode.
Import JsString.

Record node := Node {
  password : option string;
  host : string;
  port : option number;
}.

Definition isCluster (url : string) : bool := includes url "cluster://".

Definition parseHost (h : string) : result node :=
  if includes h "@" then
    match split h "@" with
    | s0 :: target :: _ =>
        if includes target ":" then
          match split target ":" with
          | ip :: port :: _ =>
              Ok {| password := Some s0; host := ip; port := Some (Number port) |}
          | _ => Ok {| password := Some s0; host := target; port := None |}
          end
        else Ok {| password := Some s0; host := target; port := None |}
    | _ => Throw TypeError
    end
  else Throw TypeError.

Fixpoint parseHosts (hosts : list node) (segments : list string) : result (list node) :=
  match segments with
  | [] => Ok hosts
  | h :: rest =>
      match parseHost h with
      | Ok n => parseHosts (hosts ++ [n]) rest
      | Throw e => Throw e
      end
  end.

Definition parseURL (url : string) : result (list node) :=
  match split url "cluster://" !! 1%nat with
  | None => Throw TypeError
  | Some url0 => parseHosts [] (split url0 ",")
  end.

End ClusterPerNode.

(** ** JavaScript values

    The values a route is made of: primitives and objects.  An object has a
    kind (a plain object, a [Date] with its time value in milliseconds,
    [None] for an invalid date, or the wrapper [Object(v)] of a primitive)
    and its own enumerable properties in insertion order.  Numbers are
    integers; arrays and functions are not part of the model. *)
Inductive objkind :=
  | Plain
  | DateObj (time : option Z)
  | BooleanObj (b : bool)
  | NumberObj (n : Z)
  | StringObj (s : string).

#[warnings="-register-all"]
Inductive jsval :=
  | JUndefined
  | JNull
  | JBool (b : bool)
  | JNum (n : Z)
  | JStr (s : string)
  | JObj (kind : objkind) (props : list (string * jsval)).

Module Js.

(** ToBoolean: what [v ? a : b], [!v] and [a && b] test. *)
Definition truthy (v : jsval) : bool :=
  match v with
  | JUndefined | JNull => false
  | JBool b => b
  | JNum n => negb (n =? 0)
  | JStr s => negb (String.eqb s "")
  | JObj _ _ => true
  end.

(** ToBoolean of a string-or-null reply of the server. *)
Definition truthy_reply (item : option string) : bool :=
  match item with
  | Some s => negb (String.eqb s "")
  | None => false
  end.

(** The first property named [k]. *)
Fixpoint obj_get (k : string) (props : list (string * jsval)) : option jsval :=
  match props with
  | [] => None
  | (k', v) :: rest => if decide (k' = k) then Some v else obj_get k rest
  end.

(** [o[k] = v]: an existing property keeps its place, a new one goes last. *)
Fixpoint obj_set (k : string) (v : jsval) (props : list (string * jsval))
  : list (string * jsval) :=
  match props with
  | [] => [(k, v)]
  | (k', v') :: rest =>
      if decide (k' = k) then (k, v) :: rest else (k', v') :: obj_set k v rest
  end.

(** The characters of a string as its index properties ["0"], ["1"], ... *)
Definition index_props (s : string) : list (string * jsval) :=
  imap (λ i c, (pretty i, JStr (String c EmptyString))) (list_ascii_of_string s).

(** The read-only own properties of an object of the given kind. *)
Definition fixed_keys (kind : objkind) : list string :=
  match kind with
  | StringObj s => "length" :: (index_props s).*1
  | _ => []
  end.

(** The own enumerable string-keyed properties that [Object.assign] copies
    from a source. *)
Definition own_enumerable (source : jsval) : list (string * jsval) :=
  match source with
  | JStr s => index_props s
  | JObj (StringObj s) props => index_props s ++ props
  | JObj _ props => props
  | _ => []
  end.

(** [v.name] for a property name that no prototype defines. *)
Definition getProp (v : jsval) (name : string) : result jsval :=
  match v with
  | JUndefined | JNull => Throw TypeError
  | JObj kind props =>
      Ok (default JUndefined
            (match kind with
             | StringObj s => obj_get name (index_props s ++ props)
             | _ => obj_get name props
             end))
  | JStr s => Ok (default JUndefined (obj_get name (index_props s)))
  | _ => Ok JUndefined
  end.

(** The strict-mode assignment [to[k] = v] that [Object.assign] performs. *)
Definition setProp (kind : objkind) (props : list (string * jsval))
    (kv : string * jsval) : result (list (string * jsval)) :=
  if decide (kv.1 ∈ fixed_keys kind) then Throw TypeError
  else Ok (obj_set kv.1 kv.2 props).

Fixpoint setProps (kind : objkind) (props : list (string * jsval))
    (kvs : list (string * jsval)) : result (list (string * jsval)) :=
  match kvs with
  | [] => Ok props
  | kv :: rest =>
      match setProp kind props kv with
      | Ok props' => setProps kind props' rest
      | Throw e => Throw e
      end
  end.

(** [Object.assign(target, source)]: ToObject of the target, which throws
    on [undefined] and [null], then one assignment per own enumerable
    property of the source. *)
Definition Object_assign (target source : jsval) : result jsval :=
  match target with
  | JUndefined | JNull => Throw TypeError
  | JBool b => JObj (BooleanObj b) <$> setProps (BooleanObj b) [] (own_enumerable source)
  | JNum n => JObj (NumberObj n) <$> setProps (NumberObj n) [] (own_enumerable source)
  | JStr s => JObj (StringObj s) <$> setProps (StringObj s) [] (own_enumerable source)
  | JObj kind props => JObj kind <$> setProps kind props (own_enumerable source)
  end.

End Js.

(** ** What the sources import

    [normalize-url], the [JSON] object and the [Date] constructor belong to
    the platform, not to the repository: the store is parameterised by
    them.  [Date_value v] is the time value of [new Date(v)], [None] for an
    invalid date.  [JSON.parse] throws a SyntaxError on malformed text. *)
Class Runtime := {
  normalizeUrl : string → string;
  JSON_parse : string → result jsval;
  JSON_stringify : jsval → string;
  Date_value : jsval → option Z;
}.

(** [./sentinel] is required by [index.js] and is not among the sources:
    its two exports are parameters, and so is the shape of the
    configuration object it builds. *)
Class SentinelModule := {
  sentinel_config : Type;
  isSentinel : string → bool;
  sentinel_parseURL : string → result sentinel_config;
}.

(** ** The Redis client

    The server holds hashes by key.  [log] lists the round trips made so
    far, oldest first: a single command, or the queue of a [multi()] sent
    by [exec()]. *)
#[warnings="-register-all"]
Inductive command :=
  | HGET (key field : string)
  | HSET (key field value : string)
  | HDEL (key field : string)
  | HGETALL (key : string)
  | HKEYS (key : string)
  | EXEC (queued : list command).

Record redis := Redis {
  db : gmap string (gmap string string);
  log : list command;
}.

(** A promise chain: a computation on the server state that resolves to a
    value or rejects with an exception. *)
Definition M (A : Type) : Type := redis → result A * redis.

#[export] Instance M_ret : MRet M := λ A a s, (Ok a, s).
#[export] Instance M_bind : MBind M := λ A B f m s,
  match m s with
  | (Ok a, s') => f a s'
  | (Throw e, s') => (Throw e, s')
  end.

(** A synchronous step inside a [then] callback. *)
Definition lift {A} (r : result A) : M A := λ s, (r, s).

(** The state after one more round trip that leaves the database [d]. *)
Definition logged (c : command) (s : redis) (d : gmap string (gmap string string))
  : redis :=
  {| db := d; log := log s ++ [c] |}.

Module ioredis.

(** The hash at [key]; a key that does not exist reads as the empty hash. *)
Definition hash_at (key : string) (d : gmap string (gmap string string))
  : gmap string string :=
  default ∅ (d !! key).

(** The database with [h] at [key]; the server keeps no empty hash. *)
Definition put (key : string) (h : gmap string string)
    (d : gmap string (gmap string string)) : gmap string (gmap string string) :=
  if decide (h = ∅) then delete key d else <[key := h]> d.

(** [hget]: the value of the field, [null] when the hash has none. *)
Definition hget (key field : string) : M (option string) := λ s,
  (Ok (hash_at key (db s) !! field), logged (HGET key field) s (db s)).

(** [hset]: the client writes an [undefined] argument as the empty string;
    the reply counts the fields created. *)
Definition hset (key field : string) (value : option string) : M Z := λ s,
  let v := default "" value in
  let h := hash_at key (db s) in
  (Ok (if h !! field is Some _ then 0 else 1),
   logged (HSET key field v) s (put key (<[field := v]> h) (db s))).

(** [hdel]: the reply counts the fields removed. *)
Definition hdel (key field : string) : M Z := λ s,
  let h := hash_at key (db s) in
  (Ok (if h !! field is Some _ then 1 else 0),
   logged (HDEL key field) s (put key (delete field h) (db s))).

Definition hgetall (key : string) : M (gmap string string) := λ s,
  (Ok (hash_at key (db s)), logged (HGETALL key) s (db s)).

(** [hkeys]: the field names, in the order the server lists them. *)
Definition hkeys (key : string) : M (list string) := λ s,
  (Ok (map_to_list (hash_at key (db s))).*1, logged (HKEYS key) s (db s)).

(** The effect and the reply of one queued command.  The store only ever
    queues [hdel]; a read has no effect and its reply is not modelled. *)
Definition queued_step (d : gmap string (gmap string string)) (c : command)
  : gmap string (gmap string string) * Z :=
  match c with
  | HSET key field v =>
      (put key (<[field := v]> (hash_at key d)) d,
       if hash_at key d !! field is Some _ then 0 else 1)
  | HDEL key field =>
      (put key (delete field (hash_at key d)) d,
       if hash_at key d !! field is Some _ then 1 else 0)
  | _ => (d, 0)
  end.

Fixpoint run_queue (d : gmap string (gmap string string)) (queue : list command)
  : gmap string (gmap string string) * list Z :=
  match queue with
  | [] => (d, [])
  | c :: rest =>
      let '(d1, r) := queued_step d c in
      let '(d2, rs) := run_queue d1 rest in
      (d2, r :: rs)
  end.

(** [multi.exec()]: the whole queue goes to the server as one transaction. *)
Definition exec (queue : list command) : M (list Z) := λ s,
  let '(d, replies) := run_queue (db s) queue in
  (Ok replies, logged (EXEC queue) s d).

End ioredis.

(** ** [src/lib/index.js]: [ConfigurableProxyRedisStorage] *)
Section Storage.
Context `{Runtime, SentinelModule}.

Definition REDIS_KEY_PREFIX : string := "configurable-proxy-redis-storage".

(** The routing table: the hash the store keeps at [REDIS_KEY_PREFIX]. *)
Definition table (s : redis) : gmap string string :=
  ioredis.hash_at REDIS_KEY_PREFIX (db s).

(** [require('path').sep], on a POSIX platform. *)
Definition pathSep : string := "/".

(** The key with the given pieces, [/s1/s2/.../sn]; the root key has none. *)
Definition keyOf (segments : list string) : string :=
  foldr (λ segment rest, "/" +:+ segment +:+ rest) "" segments.

(** [this.options], and what [_getRedisConfiguration] may return. *)
Record options := Options {
  redisURI : option string;
}.

Inductive redis_configuration :=
  | ClusterConfiguration (c : Cluster.cluster_config)
  | SentinelConfiguration (c : sentinel_config)
  | StandaloneURI (url : string).

Definition _mustBeDefined {A} (missing : string) : result A :=
  Throw (Error (missing +:+ " must be defined")).

(** [a || b] on two strings that may be [undefined]. *)
Definition or_else (a b : option string) : option string :=
  if Js.truthy_reply a then a else b.

(** [env] is [process.env.CONFIGURABLE_PROXY_REDIS_URI]. *)
Definition _getRedisUri (opts : options) (env : option string) : result string :=
  match or_else (redisURI opts) env with
  | Some url =>
      if Js.truthy_reply (Some url) then Ok url
      else _mustBeDefined "CONFIGURABLE_PROXY_REDIS_URI environment variable"
  | None => _mustBeDefined "CONFIGURABLE_PROXY_REDIS_URI environment variable"
  end.

Definition _getRedisConfiguration (opts : options) (env : option string)
  : result redis_configuration :=
  url ← _getRedisUri opts env;
  if Cluster.isCluster url then ClusterConfiguration <$> Cluster.parseURL url
  else if isSentinel url then SentinelConfiguration <$> sentinel_parseURL url
  else Ok (StandaloneURI url).

(** [this.redis], as the constructor builds it: [new Redis.Cluster(hosts,
    { redisOptions: { password } })], where [hosts] and [password] are the
    properties of that name of the configuration, or [new Redis(...)] on
    the configuration itself. *)
Inductive client :=
  | NewRedisCluster (config : redis_configuration)
  | NewRedis (config : redis_configuration).

Definition constructor (opts : options) (env : option string) : result client :=
  url ← _getRedisUri opts env;
  if Cluster.isCluster url
  then NewRedisCluster <$> _getRedisConfiguration opts env
  else NewRedis <$> _getRedisConfiguration opts env.

Definition _expandLastActivity (item : jsval) : result jsval :=
  last_activity ← Js.getProp item "last_activity";
  if negb (Js.truthy last_activity) then Ok item
  else Js.Object_assign item
         (JObj Plain [("last_activity", JObj (DateObj (Date_value last_activity)) [])]).

Definition _expand (item : option string) : result jsval :=
  if Js.truthy_reply item
  then JSON_parse (default "" item) ≫= _expandLastActivity
  else Ok JUndefined.

Definition _scrub (item : jsval) : option string :=
  if Js.truthy item then Some (JSON_stringify item) else None.

Definition cleanPath (path : string) : string :=
  if Js.truthy (JStr path) && bool_decide (path ≠ pathSep)
  then normalizeUrl path else pathSep.

Definition _getKeyPaths (path : string) : list string :=
  let arr := JsString.split (cleanPath path) pathSep in
  reverse (imap (λ index part,
                   JsString.join (take index arr) pathSep +:+ "/" +:+ part) arr).

Definition get (path : string) : M jsval :=
  let key := cleanPath path in
  data ← ioredis.hget REDIS_KEY_PREFIX key;
  lift (_expand data).

Definition add (path : string) (data : jsval) : M Z :=
  let key := cleanPath path in
  ioredis.hset REDIS_KEY_PREFIX key (_scrub data).

Definition remove (path : string) : M Z :=
  let key := cleanPath path in
  ioredis.hdel REDIS_KEY_PREFIX key.

Definition update (path : string) (data : jsval) : M Z :=
  let key := cleanPath path in
  item ← get key;
  merged ← lift (Js.Object_assign item data);
  add key merged.

(** The loop of [getAll]: every value of the reply is replaced by its
    expansion, key by key in the order of the reply, for which the server
    gives no guarantee; the first expansion that throws ends the loop. *)
Fixpoint expandRoutes (entries : list (string * string))
    (routes : gmap string jsval) : result (gmap string jsval) :=
  match entries with
  | [] => Ok routes
  | (key, item) :: rest =>
      v ← _expand (Some item);
      expandRoutes rest (<[key := v]> routes)
  end.

Definition getAll : M (gmap string jsval) :=
  routes ← ioredis.hgetall REDIS_KEY_PREFIX;
  lift (expandRoutes (map_to_list routes) ∅).

(** The object [{ prefix, data }] that [getTarget] resolves to. *)
Record target := Target {
  prefix : string;
  data : jsval;
}.

(** [route in registeredRoutes && registeredRoutes[route]], as a test. *)
Definition validRoute (registeredRoutes : gmap string jsval) (route : string) : bool :=
  match registeredRoutes !! route with
  | Some v => Js.truthy v
  | None => false
  end.

Definition getTarget (path : string) : M (option target) :=
  let paths := _getKeyPaths (cleanPath path) in
  registeredRoutes ← getAll;
  let validRoutes := filter (λ route, validRoute registeredRoutes route = true) paths in
  match validRoutes with
  | [] => mret None
  | prefix :: _ =>
      let data := default JUndefined (registeredRoutes !! prefix) in
      mret (Some {| prefix := prefix; data := data |})
  end.

(** Every stored value expands without an exception. *)
Definition decodes (s : redis) : Prop :=
  map_Forall (λ _ raw, isOk (_expand (Some raw)) = true) (table s).

(** The key [k] is in the table and its value expands to [v], which is
    not empty (it is truthy). *)
Definition registered (s : redis) (k : string) (v : jsval) : Prop :=
  ∃ raw, table s !! k = Some raw ∧ _expand (Some raw) = Ok v ∧ Js.truthy v = true.

(** [clear]: [multi] is the queue of [this.redis.multi()]; [keepRoot] is
    the truth value of the argument, [true] when it is left out. *)
Definition clear (keepRoot : bool) : M (list Z) :=
  keys ← ioredis.hkeys REDIS_KEY_PREFIX;
  let multi :=
    HDEL REDIS_KEY_PREFIX <$> filter (λ key, keepRoot = true ∧ key ≠ pathSep) keys in
  ioredis.exec multi.

End Storage.

(** ** A reference platform

    An executable stand-in for the imported functions, used to run the
    store on concrete inputs: [normalizeUrl] on absolute paths (repeated
    and trailing separators removed), [JSON] on the values of the model
    (integers, strings with the two escapes for the quote and the
    backslash, booleans, null and objects), and dates written as
    [YYYY-MM-DDTHH:mm:ss.sssZ]. *)
Module Reference.
Import JsString.

(** A stand-in for [normalize-url] on paths: the fragment, the text from
    the first [#] on, is dropped, and so are the empty pieces between
    separators and a separator at the end. *)
Definition normalizeUrl (path : string) : string :=
  keyOf (filter (λ segment, segment ≠ "")
           (split (default "" (head (split path "#"))) "/")).

(** Days since 1970-01-01 of a civil date, and back. *)
Definition days_from_civil (y m d : Z) : Z :=
  let y := if m <=? 2 then y - 1 else y in
  let era := y / 400 in
  let yoe := y - era * 400 in
  let doy := (153 * (if 2 <? m then m - 3 else m + 9) + 2) / 5 + d - 1 in
  let doe := yoe * 365 + yoe / 4 - yoe / 100 + doy in
  era * 146097 + doe - 719468.

Definition civil_from_days (z : Z) : Z * Z * Z :=
  let z := z + 719468 in
  let era := z / 146097 in
  let doe := z - era * 146097 in
  let yoe := (doe - doe / 1460 + doe / 36524 - doe / 146096) / 365 in
  let doy := doe - (365 * yoe + yoe / 4 - yoe / 100) in
  let mp := (5 * doy + 2) / 153 in
  let d := doy - (153 * mp + 2) / 5 + 1 in
  let m := if mp <? 10 then mp + 3 else mp - 9 in
  (yoe + era * 400 + (if m <=? 2 then 1 else 0), m, d).

(** [n] in decimal on [width] digits, zero padded. *)
Fixpoint padded (width : nat) (n : Z) : string :=
  match width with
  | O => ""
  | S w => padded w (n / 10) +:+ pretty (n mod 10)
  end.

(** [Date.prototype.toISOString], for the years 0000 to 9999. *)
Definition toISOString (t : Z) : string :=
  let '(y, m, d) := civil_from_days (t / 86400000) in
  let ms := t mod 86400000 in
  padded 4 y +:+ "-" +:+ padded 2 m +:+ "-" +:+ padded 2 d +:+ "T" +:+
  padded 2 (ms / 3600000) +:+ ":" +:+ padded 2 (ms / 60000 mod 60) +:+ ":" +:+
  padded 2 (ms / 1000 mod 60) +:+ "." +:+ padded 3 (ms mod 1000) +:+ "Z".

(** The fields of [YYYY-MM-DDTHH:mm:ss.sssZ], read back. *)
Definition field (from len : nat) (s : string) : option Z :=
  let text := String.substring from len s in
  if decide (String.length text = len) then digits_value 0 text else None.

Definition parseISO (s : string) : option Z :=
  y ← field 0 4 s; m ← field 5 2 s; d ← field 8 2 s;
  hh ← field 11 2 s; mm ← field 14 2 s; ss ← field 17 2 s; ms ← field 20 3 s;
  if decide (String.length s = 24%nat
             ∧ String.substring 4 1 s = "-" ∧ String.substring 7 1 s = "-"
             ∧ String.substring 10 1 s = "T" ∧ String.substring 13 1 s = ":"
             ∧ String.substring 16 1 s = ":" ∧ String.substring 19 1 s = "."
             ∧ String.substring 23 1 s = "Z")
  then Some (days_from_civil y m d * 86400000
             + hh * 3600000 + mm * 60000 + ss * 1000 + ms)
  else None.

(** The time value of [new Date(v)]. *)
Definition Date_value (v : jsval) : option Z :=
  match v with
  | JStr s => parseISO s
  | JNum n => Some n
  | JObj (DateObj t) _ => t
  | JObj (NumberObj n) _ => Some n
  | JObj (StringObj s) _ => parseISO s
  | _ => None
  end.

Definition dquote : ascii := "034"%char.
Definition backslash : ascii := "092"%char.

Fixpoint escaped (s : string) : string :=
  match s with
  | EmptyString => EmptyString
  | String c t =>
      if decide (c = dquote ∨ c = backslash)
      then String backslash (String c (escaped t))
      else String c (escaped t)
  end.

Definition quoted (s : string) : string :=
  String dquote (escaped s +:+ String dquote EmptyString).

(** [JSON.stringify]: a property whose value is [undefined] is left out, a
    date is written as its ISO string, a wrapper as its primitive. *)
Fixpoint stringify (v : jsval) : string :=
  match v with
  | JUndefined => ""
  | JNull => "null"
  | JBool b => if b then "true" else "false"
  | JNum n => pretty n
  | JStr s => quoted s
  | JObj (DateObj (Some t)) _ => quoted (toISOString t)
  | JObj (DateObj None) _ => "null"
  | JObj (BooleanObj b) _ => if b then "true" else "false"
  | JObj (NumberObj n) _ => pretty n
  | JObj (StringObj s) _ => quoted s
  | JObj Plain props =>
      "{" +:+
      (fix members (ps : list (string * jsval)) (first : bool) : string :=
         match ps with
         | [] => ""
         | (k, x) :: rest =>
             match x with
             | JUndefined => members rest first
             | _ => (if first then "" else ",") +:+ quoted k +:+ ":" +:+
                    stringify x +:+ members rest false
             end
         end) props true
      +:+ "}"
  end.

Fixpoint skip_blanks (s : string) : string :=
  match s with
  | String c t => if Ascii.is_space c then skip_blanks t else s
  | EmptyString => s
  end.

(** The characters of a string literal up to its closing quote. *)
Fixpoint string_body (s : string) : option (string * string) :=
  match s with
  | EmptyString => None
  | String c t =>
      if decide (c = dquote) then Some (EmptyString, t)
      else if decide (c = backslash) then
        match t with
        | String e t' =>
            if decide (e = dquote ∨ e = backslash) then
              '(body, rest) ← string_body t'; Some (String e body, rest)
            else None
        | EmptyString => None
        end
      else '(body, rest) ← string_body t; Some (String c body, rest)
  end.

Fixpoint digits_of (s : string) : string * string :=
  match s with
  | String c t =>
      if Ascii.is_nat c is Some _
      then let '(ds, rest) := digits_of t in (String c ds, rest)
      else (EmptyString, s)
  | EmptyString => (EmptyString, s)
  end.

(** An integer literal: no leading zero, no fraction, no exponent. *)
Definition natural (s : string) : option (Z * string) :=
  let '(ds, rest) := digits_of s in
  match ds, rest with
  | EmptyString, _ => None
  | String "0" (String _ _), _ => None
  | _, String "." _ | _, String "e" _ | _, String "E" _ => None
  | _, _ => n ← digits_value 0 ds; Some (n, rest)
  end.

Definition keyword (word : string) (v : jsval) (s : string) : option (jsval * string) :=
  if String.prefix word s
  then Some (v, String.substring (String.length word) (String.length s) s)
  else None.

Fixpoint value (fuel : nat) (s : string) : option (jsval * string) :=
  match fuel with
  | O => None
  | S fuel =>
      match skip_blanks s with
      | String "n" _ as r => keyword "null" JNull r
      | String "t" _ as r => keyword "true" (JBool true) r
      | String "f" _ as r => keyword "false" (JBool false) r
      | String "-" t => '(n, rest) ← natural t; Some (JNum (- n), rest)
      | String "{" t =>
          match skip_blanks t with
          | String "}" rest => Some (JObj Plain [], rest)
          | t' => '(props, rest) ← members fuel [] t'; Some (JObj Plain props, rest)
          end
      | String c t as r =>
          if decide (c = dquote) then
            '(body, rest) ← string_body t; Some (JStr body, rest)
          else '(n, rest) ← natural r; Some (JNum n, rest)
      | EmptyString => None
      end
  end
with members (fuel : nat) (props : list (string * jsval)) (s : string)
  : option (list (string * jsval) * string) :=
  match fuel with
  | O => None
  | S fuel =>
      match skip_blanks s with
      | String c t =>
          if decide (c = dquote) then
            '(k, rest) ← string_body t;
            match skip_blanks rest with
            | String ":" rest =>
                '(v, rest) ← value fuel rest;
                match skip_blanks rest with
                | String "," rest => members fuel (Js.obj_set k v props) rest
                | String "}" rest => Some (Js.obj_set k v props, rest)
                | _ => None
                end
            | _ => None
            end
          else None
      | EmptyString => None
      end
  end.

(** [JSON.parse] *)
Definition parse (text : string) : result jsval :=
  match value (S (String.length text)) text with
  | Some (v, rest) =>
      if decide (skip_blanks rest = "") then Ok v else Throw SyntaxError
  | None => Throw SyntaxError
  end.

Definition runtime : Runtime :=
  Build_Runtime normalizeUrl parse stringify Date_value.

(** A stand-in for [./sentinel]: it recognises the marker [sentinel://]
    the way [cluster.js] recognises its own, and keeps the rest of the
    string as the configuration. *)
(** A small table for running the store: the root and two routes, as
    [add] would have written them. *)
Definition route_foo : list (string * jsval) :=
  [("target", JStr "http://127.0.0.1:8001")].

Definition route_foo_bar : list (string * jsval) :=
  [("target", JStr "http://127.0.0.1:8002"); ("user", JStr "ada")].

Definition route_dated : list (string * jsval) :=
  [("target", JStr "http://127.0.0.1:8003");
   ("last_activity", JObj (DateObj (Some 1700000000123)) [])].

Definition server : redis :=
  {| db := {[ REDIS_KEY_PREFIX :=
                {[ "/" := stringify (JObj Plain [("target", JStr "http://127.0.0.1:8000")]);
                   "/foo" := stringify (JObj Plain route_foo);
                   "/foo/bar" := stringify (JObj Plain route_foo_bar) ]} ]};
     log := [] |}.

(** The same server with a hash of another application beside the
    store's. *)
Definition shared_server : redis :=
  {| db := <["sessions" := {[ "ada" := "1719" ]}]> (db server); log := [] |}.

Definition sentinel : SentinelModule := {|
  sentinel_config := string;
  isSentinel url := includes url "sentinel://";
  sentinel_parseURL url :=
    match split url "sentinel://" !! 1%nat with
    | Some rest => Ok rest
    | None => Throw TypeError
    end;
|}.

End Reference.

(** * Properties *)

(** ** Strings *)
Section StringFacts.
Import JsString.

Lemma app_cons c (t r : string) : String c t +:+ r = String c (t +:+ r).
Proof. reflexivity. Qed.

Lemma prefix_cons c d p s :
  String.prefix (String c p) (String d s) = true ↔ c = d ∧ String.prefix p s = true.
Proof.
  simpl. destruct (ascii_dec c d) as [->|Hne]; split; try tauto; try discriminate.
Qed.

Lemma prefix_char c d s :
  String.prefix (String c "") (String d s) = true ↔ c = d.
Proof.
  rewrite prefix_cons. split; [tauto|].
  intros ->. split; [done|]. by destruct s.
Qed.

Lemma prefix_spec p s : String.prefix p s = true ↔ ∃ r, s = p +:+ r.
Proof.
  revert s. induction p as [|c p IH]; intros s.
  - split; [intros _; exists s; reflexivity | intros _; destruct s; reflexivity].
  - destruct s as [|d s].
    + split; [discriminate | intros [r Hr]; discriminate].
    + rewrite prefix_cons, IH. split.
      * intros [-> [r ->]]. exists r. reflexivity.
      * intros [r Hr]. rewrite app_cons in Hr. injection Hr as -> ->. eauto.
Qed.

Lemma includes_spec s sub :
  includes s sub = true ↔ ∃ pre post, s = pre +:+ sub +:+ post.
Proof.
  induction s as [|c t IH]; cbn [includes].
  - rewrite orb_false_r, prefix_spec. split.
    + intros [r Hr]. exists "", r. exact Hr.
    + intros (pre & post & Hs). destruct pre; [|discriminate]. eauto.
  - rewrite orb_true_iff, prefix_spec, IH. split.
    + intros [[r Hr]|(pre & post & ->)].
      * exists "", r. exact Hr.
      * exists (String c pre), post. reflexivity.
    + intros (pre & post & Hs). destruct pre as [|c' pre].
      * left. exists post. exact Hs.
      * right. rewrite app_cons in Hs. injection Hs as -> ->. eauto.
Qed.

Lemma split_from_nonempty sep k s : split_from sep k s ≠ [].
Proof.
  revert k. induction s as [|c t IH]; intros k; cbn [split_from]; [done|].
  destruct k; [|apply IH].
  destruct (String.prefix sep (String c t)); [done|].
  destruct (split_from sep 0 t); done.
Qed.

Lemma split_includes s sep :
  sep ≠ "" → includes s sep = true →
  ∃ a b rest, split s sep = a :: b :: rest.
Proof.
  intros Hsep. unfold split. induction s as [|c t IH]; cbn [includes split_from].
  - rewrite orb_false_r. destruct sep; [done | discriminate].
  - destruct (String.prefix sep (String c t)) eqn:Hp; cbn [orb].
    + intros _. pose proof (split_from_nonempty sep (String.length sep - 1) t) as Hne.
      destruct (split_from sep (String.length sep - 1) t) as [|b rest]; [done|]. eauto.
    + intros Hi. destruct (IH Hi) as (a & b & rest & ->). eauto.
Qed.

Lemma app_empty_r (s : string) : s +:+ "" = s.
Proof. induction s as [|c t IH]; [done|]. by rewrite app_cons, IH. Qed.

Lemma app_assoc_string (a b c : string) : (a +:+ b) +:+ c = a +:+ b +:+ c.
Proof. induction a as [|x a IH]; [done|]. by rewrite !app_cons, IH. Qed.

Lemma split_leading_sep c s :
  split (String c s) (String c "") = "" :: split s (String c "").
Proof.
  unfold split. cbn [split_from].
  by rewrite (proj2 (prefix_char c c s) eq_refl).
Qed.

Lemma split_no_sep s c :
  includes s (String c "") = false → split s (String c "") = [s].
Proof.
  unfold split. induction s as [|d t IH]; [reflexivity|].
  cbn [includes split_from]. intros Hi. apply orb_false_iff in Hi as [Hp Hi].
  rewrite Hp, (IH Hi). reflexivity.
Qed.

Lemma split_app_sep a b c :
  includes a (String c "") = false →
  split (a +:+ String c b) (String c "") = a :: split b (String c "").
Proof.
  unfold split. induction a as [|d t IH]; intros Hi.
  - change ("" +:+ String c b) with (String c b). cbn [split_from].
    assert (String.prefix (String c "") (String c b) = true) as ->.
    { apply prefix_spec. exists b. reflexivity. }
    reflexivity.
  - cbn [includes] in Hi. apply orb_false_iff in Hi as [Hp Hi].
    rewrite app_cons. cbn [split_from].
    assert (String.prefix (String c "") (String d (t +:+ String c b)) = false) as ->.
    { simpl in Hp |- *. destruct (ascii_dec c d); [|reflexivity].
      destruct t; discriminate. }
    rewrite (IH Hi). reflexivity.
Qed.

Lemma split_trailing_sep s c :
  split (s +:+ String c "") (String c "") = split s (String c "") ++ [""].
Proof.
  unfold split. induction s as [|d t IH].
  - change ("" +:+ String c "") with (String c ""). cbn [split_from].
    assert (String.prefix (String c "") (String c "") = true) as ->.
    { apply prefix_spec. exists "". reflexivity. }
    reflexivity.
  - rewrite app_cons. cbn [split_from].
    assert (String.prefix (String c "") (String d (t +:+ String c ""))
            = String.prefix (String c "") (String d t)) as ->.
    { simpl. destruct (ascii_dec c d); [|reflexivity]. destruct t; reflexivity. }
    destruct (String.prefix (String c "") (String d t)).
    + cbn [String.length Nat.sub]. rewrite IH. reflexivity.
    + rewrite IH. pose proof (split_from_nonempty (String c "") 0 t).
      destruct (split_from (String c "") 0 t); [done | reflexivity].
Qed.

End StringFacts.

(** ** The cluster parser *)
Section ClusterFacts.
Import JsString Cluster.

Lemma push_nonempty {A} (f : string → A) (segments : list string) (acc : list A) :
  foldl (λ hosts h, if decide (h = "") then hosts else hosts ++ [f h]) acc segments
  = acc ++ omap (λ h, if decide (h = "") then None else Some (f h)) segments.
Proof.
  revert acc. induction segments as [|h rest IH]; intros acc; cbn [foldl].
  - cbn. by rewrite app_nil_r.
  - rewrite IH. cbn. destruct (decide (h = "")); [done|].
    by rewrite <- app_assoc.
Qed.

Lemma parseHosts_segments url1 :
  parseHosts url1
  = omap (λ h, if decide (h = "") then None else Some (parseHost h)) (split url1 ",").
Proof. unfold parseHosts. by rewrite push_nonempty. Qed.

Lemma parseHosts_trailing_comma url1 :
  parseHosts (url1 +:+ ",") = parseHosts url1.
Proof.
  rewrite !parseHosts_segments, (split_trailing_sep url1 ","%char), omap_app.
  cbn. by rewrite app_nil_r.
Qed.

Lemma parseHost_no_port h :
  includes h ":" = false → parseHost h = {| host := h; port := None |}.
Proof. unfold parseHost. by intros ->. Qed.

Lemma digits_no_colon ds acc n :
  digits_value acc ds = Some n → includes ds ":" = false.
Proof.
  revert acc. induction ds as [|c t IH]; intros acc; [reflexivity|].
  cbn [digits_value includes]. destruct (Ascii.is_nat c) eqn:Hc; intros Hv; [|discriminate Hv]. rewrite (IH _ Hv), orb_false_r.
  destruct (String.prefix ":" (String c t)) eqn:Hp; [|reflexivity].
  apply prefix_char in Hp as <-. discriminate Hc.
Qed.

Lemma parseHost_port ip ds n :
  includes ip ":" = false → digits_value 0 ds = Some n → n ≤ MAX_SAFE_INTEGER →
  parseHost (ip +:+ ":" +:+ ds) = {| host := ip; port := Some (Int n) |}.
Proof.
  intros Hip Hds Hn. unfold parseHost.
  assert (includes (ip +:+ ":" +:+ ds) ":" = true) as ->.
  { apply includes_spec. by exists ip, ds. }
  change (":" +:+ ds) with (String ":" ds).
  rewrite (split_app_sep ip ds ":"%char Hip).
  rewrite (split_no_sep ds ":"%char (digits_no_colon _ _ _ Hds)).
  unfold Number. rewrite Hds. by rewrite (proj2 (Z.leb_le _ _) Hn).
Qed.

Lemma parseURL_total url :
  isCluster url = true → ∃ c, parseURL url = Ok c.
Proof.
  unfold isCluster, parseURL. intros Hi.
  destruct (split_includes url "cluster://") as (a & url1 & rest & ->); [done|done|].
  cbn [lookup list_lookup].
  destruct (includes url1 "@") eqn:Hat; [|eauto].
  destruct (split_includes url1 "@") as (p & hh & rest' & ->); [done|done|]. eauto.
Qed.

End ClusterFacts.

Section ClusterClaims.
Import JsString Cluster.

(** C6. [cluster://secret@h1:1000,h2:2000] parses to the two nodes h1:1000
    and h2:2000 with the one password [secret]; a port written in decimal
    digits after the colon becomes the integer of that value, for every
    value up to 2^53 - 1, which a JavaScript number holds exactly; a segment
    without a colon has no port; a trailing comma adds no node. *)
Theorem parseURL_shared_password :
  parseURL "cluster://secret@h1:1000,h2:2000"
  = Ok {| hosts := [Node "h1" (Some (Int 1000)); Node "h2" (Some (Int 2000))];
          password := Some "secret" |}
  ∧ (∀ ip ds n, includes ip ":" = false → digits_value 0 ds = Some n →
       n ≤ MAX_SAFE_INTEGER →
       parseHost (ip +:+ ":" +:+ ds) = {| host := ip; port := Some (Int n) |})
  ∧ (∀ h, includes h ":" = false → parseHost h = {| host := h; port := None |})
  ∧ (∀ url1, parseHosts (url1 +:+ ",") = parseHosts url1)
  ∧ parseURL "cluster://secret@h1,h2:2000,,"
    = Ok {| hosts := [Node "h1" None; Node "h2" (Some (Int 2000))];
            password := Some "secret" |}.
Proof.
  split; [reflexivity|]. split; [apply parseHost_port|].
  split; [apply parseHost_no_port|]. split; [apply parseHosts_trailing_comma|].
  reflexivity.
Qed.

Lemma parseURL_shared_password_witness :
  parseHost ("10.0.0.7" +:+ ":" +:+ "6379")
  = {| host := "10.0.0.7"; port := Some (Int 6379) |}
  ∧ parseHost "redis-3" = {| host := "redis-3"; port := None |}.
Proof.
  destruct parseURL_shared_password as (_ & Hport & Hbare & _).
  split; [apply Hport; [reflexivity | reflexivity | by vm_compute]
         | apply Hbare; reflexivity].
Defined.

(** C5, as the code has it.  [parseURL] has no rejection of its own: on
    every string that contains the marker it returns a configuration.  A
    credential followed by an empty host part is accepted, the password is
    kept and the empty segment adds no node. *)
Theorem parseURL_accepts_empty_host :
  (∀ url, isCluster url = true → ∃ c, parseURL url = Ok c)
  ∧ parseURL "cluster://secret@"
    = Ok {| hosts := []; password := Some "secret" |}
  ∧ parseURL "cluster://secret@,h2:2000"
    = Ok {| hosts := [Node "h2" (Some (Int 2000))]; password := Some "secret" |}.
Proof. split; [apply parseURL_total|]. split; reflexivity. Qed.

Lemma parseURL_accepts_empty_host_witness :
  ∃ c, parseURL "cluster://:secret@" = Ok c.
Proof. apply (proj1 parseURL_accepts_empty_host). reflexivity. Defined.

(** The string [cluster://secret@] has a credential and no host after it,
    and [parseURL] returns a configuration for it. *)
Lemma parseURL_empty_host_is_tolerated :
  isCluster "cluster://secret@" = true
  ∧ parseURL "cluster://secret@"
    = Ok {| hosts := []; password := Some "secret" |}.
Proof. split; reflexivity. Qed.

End ClusterClaims.

Section Configuration.
Context `{SentinelModule}.
Import JsString.

(** C7, as the code has it.  The connection string is classified by a
    literal search for the marker, cluster first, then sentinel, then the
    standalone fallback; it is a cluster string exactly when [cluster://]
    occurs in it, at the start or further on, and a string with neither
    marker is returned as it is. *)
Theorem classification_by_marker (opts : options) (env : option string) (url : string) :
  _getRedisUri opts env = Ok url →
  (Cluster.isCluster url = true ↔ ∃ pre post, url = pre +:+ "cluster://" +:+ post)
  ∧ (Cluster.isCluster url = true →
       ∃ c, Cluster.parseURL url = Ok c
            ∧ _getRedisConfiguration opts env = Ok (ClusterConfiguration c))
  ∧ (Cluster.isCluster url = false → isSentinel url = true →
       _getRedisConfiguration opts env = SentinelConfiguration <$> sentinel_parseURL url)
  ∧ (Cluster.isCluster url = false → isSentinel url = false →
       _getRedisConfiguration opts env = Ok (StandaloneURI url)).
Proof.
  intros Huri. unfold _getRedisConfiguration. rewrite Huri. cbn [mbind result_bind].
  split; [apply includes_spec|]. split; [|split].
  - intros Hc. rewrite Hc. destruct (parseURL_total url Hc) as [c Hp].
    exists c. by rewrite Hp.
  - by intros -> ->.
  - by intros -> ->.
Qed.

End Configuration.

Lemma classification_by_marker_witness :
  @_getRedisConfiguration Reference.sentinel (Options (Some "redis://localhost:6379")) None
  = Ok (StandaloneURI "redis://localhost:6379").
Proof.
  apply (@classification_by_marker Reference.sentinel
           (Options (Some "redis://localhost:6379")) None "redis://localhost:6379");
    reflexivity.
Defined.

(** A string that does not begin with [cluster://] and is classified as a
    cluster all the same, because the marker occurs further on. *)
Lemma cluster_marker_inside :
  JsString.startsWith "rediss://h:6379/?tag=cluster://n1" "cluster://" = false
  ∧ Cluster.isCluster "rediss://h:6379/?tag=cluster://n1" = true
  ∧ @_getRedisConfiguration Reference.sentinel
      (Options (Some "rediss://h:6379/?tag=cluster://n1")) None
    = Ok (ClusterConfiguration
            {| Cluster.hosts := [Cluster.Node "n1" None]; Cluster.password := None |}).
Proof. repeat split; reflexivity. Qed.

(** ** Path keys *)
Section PathKeys.
Context `{Runtime}.
Import JsString.

Lemma truthy_string (s : string) : Js.truthy (JStr s) = true ↔ s ≠ "".
Proof.
  cbn [Js.truthy]. rewrite negb_true_iff. split.
  - intros Hs ->. discriminate Hs.
  - intros Hs. by apply String.eqb_neq.
Qed.

Lemma cleanPath_root : cleanPath "/" = "/" ∧ cleanPath "" = "/".
Proof. split; reflexivity. Qed.

Lemma cleanPath_other (path : string) :
  path ≠ "" → path ≠ "/" → cleanPath path = normalizeUrl path.
Proof.
  intros H1 H2. unfold cleanPath, pathSep.
  apply truthy_string in H1 as ->. by rewrite bool_decide_eq_true_2.
Qed.

Lemma cleanPath_cases (path : string) :
  (path = "" ∨ path = "/") ∧ cleanPath path = "/"
  ∨ path ≠ "" ∧ path ≠ "/" ∧ cleanPath path = normalizeUrl path.
Proof.
  destruct (decide (path = "")) as [->|H1]; [left; split; [by left | reflexivity]|].
  destruct (decide (path = "/")) as [->|H2]; [left; split; [by right | reflexivity]|].
  right. eauto using cleanPath_other.
Qed.

(** A key is a fixed point of [cleanPath] exactly when it is the root, or
    is not empty and [normalize-url] returns it as it is. *)
Lemma cleanPath_fixed (key : string) :
  cleanPath key = key ↔ key = "/" ∨ (key ≠ "" ∧ normalizeUrl key = key).
Proof.
  destruct (cleanPath_cases key) as [[[-> | ->] Hc]|(H1 & H2 & Hc)]; rewrite Hc.
  - split; [discriminate | by intros [Hk | [Hk _]]].
  - split; [by left | done].
  - split; [by right | by intros [Hk | [_ Hk]]].
Qed.

(** C8, as the code has it.  [cleanPath] sends the empty path and the root
    to the root key, and every other path to what [normalize-url] returns
    for it.  A second [cleanPath] gives the same key exactly when the
    first gave the root key, or a key that is not empty and that
    [normalize-url] returns as it is; so it does on the empty path and
    the root, and it does not where [normalize-url] returns the empty
    string, which the second [cleanPath] sends to the root. *)
Theorem cleanPath_twice :
  cleanPath "" = "/" ∧ cleanPath "/" = "/"
  ∧ cleanPath (cleanPath "") = cleanPath ""
  ∧ cleanPath (cleanPath "/") = cleanPath "/"
  ∧ (∀ path, path ≠ "" → path ≠ "/" → cleanPath path = normalizeUrl path)
  ∧ (∀ path,
       cleanPath (cleanPath path) = cleanPath path
       ↔ cleanPath path = "/"
         ∨ (cleanPath path ≠ "" ∧ normalizeUrl (cleanPath path) = cleanPath path))
  ∧ (∀ path, cleanPath path = "" → cleanPath (cleanPath path) = "/").
Proof.
  do 4 (split; [reflexivity|]). split; [apply cleanPath_other|].
  split; [intros path; apply cleanPath_fixed|]. by intros path ->.
Qed.

(** X3. Where [normalize-url] returns the empty string for a path that
    is neither empty nor the root, [cleanPath] returns the empty string
    too, and a second [cleanPath] moves that key to the root. *)
Lemma cleanPath_empty_key (path : string) :
  path ≠ "" → path ≠ "/" → normalizeUrl path = "" →
  cleanPath path = "" ∧ cleanPath (cleanPath path) = "/".
Proof.
  intros H1 H2 Hn. rewrite (cleanPath_other path H1 H2), Hn. done.
Qed.

Lemma keyOf_snoc segments segment :
  keyOf (segments ++ [segment]) = keyOf segments +:+ "/" +:+ segment.
Proof.
  induction segments as [|s rest IH]; cbn [app keyOf foldr].
  - by rewrite app_empty_r.
  - fold (keyOf (rest ++ [segment])). fold (keyOf rest).
    by rewrite IH, !app_assoc_string.
Qed.

Lemma split_keyOf segment segments :
  Forall (λ s, includes s "/" = false) (segment :: segments) →
  split (keyOf (segment :: segments)) "/" = "" :: segment :: segments.
Proof.
  revert segment. induction segments as [|s rest IH]; intros segment Hall.
  - cbn [keyOf foldr]. rewrite app_empty_r.
    change ("/" +:+ segment) with (String "/" segment).
    rewrite split_leading_sep, split_no_sep; [done|]. by apply Forall_inv in Hall.
  - apply Forall_cons in Hall as [Hseg Hrest]. specialize (IH s Hrest).
    cbn [keyOf foldr] in *. fold (keyOf rest) in *.
    change ("/" +:+ segment +:+ "/" +:+ s +:+ keyOf rest)
      with (String "/" (segment +:+ String "/" (s +:+ keyOf rest))).
    change ("/" +:+ s +:+ keyOf rest) with (String "/" (s +:+ keyOf rest)) in IH.
    rewrite split_leading_sep in IH. injection IH as IH.
    by rewrite split_leading_sep, (split_app_sep segment _ "/"%char Hseg), IH.
Qed.

Lemma join_keyOf segment segments :
  join (segment :: segments) "/" = segment +:+ keyOf segments.
Proof.
  revert segment. induction segments as [|s rest IH]; intros segment.
  - cbn. by rewrite app_empty_r.
  - change (join (segment :: s :: rest) "/")
      with (segment +:+ "/" +:+ join (s :: rest) "/").
    by rewrite IH.
Qed.

(** The ancestors of the key with the pieces [segments], none of which
    holds a separator: the keys of the leading pieces, longest first, and
    then the root. *)
Lemma getKeyPaths_keyOf segment segments :
  Forall (λ s, includes s "/" = false) (segment :: segments) →
  cleanPath (keyOf (segment :: segments)) = keyOf (segment :: segments) →
  _getKeyPaths (keyOf (segment :: segments))
  = reverse ("/" :: imap (λ i _, keyOf (take (S i) (segment :: segments)))
                         (segment :: segments)).
Proof.
  intros Hall Hclean. unfold _getKeyPaths, pathSep. rewrite Hclean, split_keyOf by done.
  f_equal. generalize (segment :: segments). intros l.
  rewrite imap_cons. f_equal. apply imap_ext. intros i s Hi. cbn [compose].
  change (take (S i) ("" :: l)) with ("" :: take i l).
  by rewrite join_keyOf, (take_S_r _ _ _ Hi), keyOf_snoc.
Qed.

(** C4, as the code has it.  The ancestors of a key that normalisation
    leaves unchanged are the keys of its leading pieces, the whole key
    first, and then the root: [/foo/bar/xyz], [/foo/bar], [/foo] and [/]
    for [/foo/bar/xyz].  The list has one entry for each piece between
    separators, and the root key splits into two empty pieces: its list
    is the root twice. *)
Theorem getKeyPaths_ancestors :
  (∀ segment segments,
     Forall (λ s, includes s "/" = false) (segment :: segments) →
     cleanPath (keyOf (segment :: segments)) = keyOf (segment :: segments) →
     _getKeyPaths (keyOf (segment :: segments))
     = reverse ("/" :: imap (λ i _, keyOf (take (S i) (segment :: segments)))
                            (segment :: segments)))
  ∧ (normalizeUrl "/foo/bar/xyz" = "/foo/bar/xyz" →
       _getKeyPaths "/foo/bar/xyz" = ["/foo/bar/xyz"; "/foo/bar"; "/foo"; "/"])
  ∧ _getKeyPaths "/" = ["/"; "/"]
  ∧ (∀ path, length (_getKeyPaths path) = length (split (cleanPath path) pathSep)).
Proof.
  split; [apply getKeyPaths_keyOf|]. split; [|split].
  - intros Hfix. unfold _getKeyPaths.
    rewrite cleanPath_other, Hfix by done. reflexivity.
  - reflexivity.
  - intros path. unfold _getKeyPaths. by rewrite length_reverse, length_imap.
Qed.

End PathKeys.

Lemma cleanPath_twice_witness :
  @cleanPath Reference.runtime (@cleanPath Reference.runtime "/foo//bar/")
  = @cleanPath Reference.runtime "/foo//bar/".
Proof.
  destruct (@cleanPath_twice Reference.runtime) as (_ & _ & _ & _ & _ & Hfixed & _).
  apply (proj2 (Hfixed "/foo//bar/")). right. split; [discriminate | reflexivity].
Defined.

(** A path on which [cleanPath] is not idempotent: [normalize-url] drops
    the fragment of [/#] and returns the empty string, which is the key of
    the path; the key of that key is the root. *)
Lemma cleanPath_fragment_twice :
  @cleanPath Reference.runtime "/#" = ""
  ∧ @cleanPath Reference.runtime (@cleanPath Reference.runtime "/#") = "/".
Proof. split; reflexivity. Qed.

Lemma cleanPath_empty_key_witness :
  @cleanPath Reference.runtime "//" = ""
  ∧ @cleanPath Reference.runtime (@cleanPath Reference.runtime "//") = "/".
Proof.
  apply (@cleanPath_empty_key Reference.runtime "//"); [discriminate..|reflexivity].
Defined.

Lemma getKeyPaths_ancestors_witness :
  @_getKeyPaths Reference.runtime "/foo/bar/xyz"
  = ["/foo/bar/xyz"; "/foo/bar"; "/foo"; "/"].
Proof.
  apply (proj1 (@getKeyPaths_ancestors Reference.runtime) "foo" ["bar"; "xyz"]).
  - repeat constructor.
  - reflexivity.
Defined.

(** The ancestors of the root key: two entries, not one.  ([cleanPath]
    returns the root key without calling [normalize-url].) *)
Lemma getKeyPaths_root_twice :
  @_getKeyPaths Reference.runtime "/" = ["/"; "/"].
Proof. reflexivity. Qed.
(** ** Objects *)
Section Objects.
Import Js.

Lemma obj_get_set_eq k v props : obj_get k (obj_set k v props) = Some v.
Proof.
  induction props as [|[k' v'] rest IH]; cbn [obj_set obj_get].
  - by rewrite decide_True.
  - destruct (decide (k' = k)) as [->|Hne]; cbn [obj_get].
    + by rewrite decide_True.
    + by rewrite decide_False.
Qed.

Lemma obj_get_set_ne k k' v props :
  k ≠ k' → obj_get k' (obj_set k v props) = obj_get k' props.
Proof.
  intros Hne. induction props as [|[k0 v0] rest IH]; cbn [obj_set obj_get].
  - by rewrite decide_False.
  - destruct (decide (k0 = k)) as [->|Hk]; cbn [obj_get].
    + by rewrite !decide_False.
    + by rewrite IH.
Qed.

Lemma obj_set_set k v v' props :
  obj_set k v (obj_set k v' props) = obj_set k v props.
Proof.
  induction props as [|[k0 v0] rest IH]; cbn [obj_set].
  - by rewrite decide_True.
  - destruct (decide (k0 = k)) as [->|Hk]; cbn [obj_set].
    + by rewrite decide_True.
    + by rewrite decide_False, IH.
Qed.

Lemma obj_set_same k v props : obj_get k props = Some v → obj_set k v props = props.
Proof.
  induction props as [|[k0 v0] rest IH]; cbn [obj_set obj_get]; [done|].
  destruct (decide (k0 = k)) as [->|Hk].
  - by intros [= ->].
  - intros Hg. by rewrite IH.
Qed.

Lemma obj_get_fresh k props : k ∉ props.*1 → obj_get k props = None.
Proof.
  induction props as [|[k0 v0] rest IH]; [done|].
  rewrite fmap_cons, not_elem_of_cons. cbn [fst obj_get]. intros [Hne Hrest].
  rewrite decide_False by done. by apply IH.
Qed.

Lemma setProps_plain props kvs :
  setProps Plain props kvs = Ok (foldl (λ ps kv, obj_set kv.1 kv.2 ps) props kvs).
Proof.
  revert props. induction kvs as [|kv rest IH]; intros props; [done|].
  cbn [setProps foldl]. unfold setProp. cbn [fixed_keys].
  rewrite decide_False by apply not_elem_of_nil. apply IH.
Qed.

(** Shallow merge: a property of the source wins, every other property of
    the target is kept. *)
Lemma obj_get_assign f props kvs :
  NoDup kvs.*1 →
  obj_get f (foldl (λ ps kv, obj_set kv.1 kv.2 ps) props kvs)
  = match obj_get f kvs with
    | Some v => Some v
    | None => obj_get f props
    end.
Proof.
  revert props. induction kvs as [|[k v] rest IH]; intros props; [done|].
  rewrite fmap_cons, NoDup_cons. cbn [fst]. intros [Hk Hrest].
  cbn [foldl fst snd obj_get]. rewrite (IH _ Hrest).
  destruct (decide (k = f)) as [->|Hne].
  - by rewrite (obj_get_fresh f rest Hk), obj_get_set_eq.
  - by rewrite obj_get_set_ne.
Qed.

Lemma Object_assign_plain item partial :
  Object_assign (JObj Plain item) (JObj Plain partial)
  = Ok (JObj Plain (foldl (λ ps kv, obj_set kv.1 kv.2 ps) item partial)).
Proof. cbn [Object_assign own_enumerable]. by rewrite setProps_plain. Qed.

End Objects.

(** ** The Redis client *)
Section Client.
Import ioredis.

Lemma hash_at_put_eq key h d : hash_at key (put key h d) = h.
Proof.
  unfold hash_at, put. destruct (decide (h = ∅)) as [->|Hne].
  - by rewrite lookup_delete_eq.
  - by rewrite lookup_insert_eq.
Qed.

Lemma hash_at_put_ne key key' h d :
  key ≠ key' → hash_at key' (put key h d) = hash_at key' d.
Proof.
  intros Hne. unfold hash_at, put. destruct (decide (h = ∅)).
  - by rewrite lookup_delete_ne.
  - by rewrite lookup_insert_ne.
Qed.

(** A queue of [hdel] on one key removes the listed fields and no other. *)
Lemma run_queue_hdel key (fields : list string) d (k : string) :
  hash_at key (run_queue d (HDEL key <$> fields)).1 !! k
  = if decide (k ∈ fields) then None else hash_at key d !! k.
Proof.
  revert d. induction fields as [|f rest IH]; intros d.
  - cbn. by rewrite decide_False by apply not_elem_of_nil.
  - rewrite fmap_cons. cbn [run_queue queued_step].
    specialize (IH (put key (delete f (hash_at key d)) d)).
    destruct (run_queue _ (HDEL key <$> rest)) as [d2 rs].
    cbn [fst] in *. rewrite IH, hash_at_put_eq.
    destruct (decide (k = f)) as [->|Hne].
    + rewrite (decide_True (P := f ∈ f :: rest)) by apply list_elem_of_here.
      case_decide; [done | apply lookup_delete_eq].
    + rewrite lookup_delete_ne by done.
      destruct (decide (k ∈ rest)) as [Hin|Hin].
      * by rewrite decide_True by (by apply list_elem_of_further).
      * rewrite decide_False; [done|]. by intros [?|?]%elem_of_cons.
Qed.

End Client.

(** ** The route store *)
Section Store.
Context `{Runtime}.

Lemma table_put c s h :
  table (logged c s (ioredis.put REDIS_KEY_PREFIX h (db s))) = h.
Proof. apply hash_at_put_eq. Qed.

Lemma table_logged c s : table (logged c s (db s)) = table s.
Proof. reflexivity. Qed.

Lemma get_run path s :
  get path s
  = (_expand (table s !! cleanPath path),
     logged (HGET REDIS_KEY_PREFIX (cleanPath path)) s (db s)).
Proof. reflexivity. Qed.

Lemma add_run path d s :
  add path d s
  = (Ok (if table s !! cleanPath path is Some _ then 0 else 1),
     logged (HSET REDIS_KEY_PREFIX (cleanPath path) (default "" (_scrub d))) s
       (ioredis.put REDIS_KEY_PREFIX
          (<[cleanPath path := default "" (_scrub d)]> (table s)) (db s))).
Proof. reflexivity. Qed.

Lemma remove_run path s :
  remove path s
  = (Ok (if table s !! cleanPath path is Some _ then 1 else 0),
     logged (HDEL REDIS_KEY_PREFIX (cleanPath path)) s
       (ioredis.put REDIS_KEY_PREFIX (delete (cleanPath path) (table s)) (db s))).
Proof. reflexivity. Qed.

Lemma expand_absent : _expand None = Ok JUndefined ∧ _expand (Some "") = Ok JUndefined.
Proof. split; reflexivity. Qed.

Lemma expand_text text :
  text ≠ "" → _expand (Some text) = JSON_parse text ≫= _expandLastActivity.
Proof.
  intros Hne. unfold _expand. cbn [Js.truthy_reply from_option id].
  by rewrite (proj2 (String.eqb_neq text "") Hne).
Qed.

Lemma scrub_object kind props :
  _scrub (JObj kind props) = Some (JSON_stringify (JObj kind props)).
Proof. reflexivity. Qed.

(** Reading back what [add] wrote: the stored text, expanded. *)
Lemma get_add path d s :
  (get path (add path d s).2).1 = _expand (Some (default "" (_scrub d))).
Proof.
  rewrite add_run, get_run. cbn [fst snd]. by rewrite table_put, lookup_insert_eq.
Qed.

Lemma get_remove path s : (get path (remove path s).2).1 = Ok JUndefined.
Proof.
  rewrite remove_run, get_run. cbn [fst snd]. by rewrite table_put, lookup_delete_eq.
Qed.

Lemma expandLastActivity_without item :
  Js.truthy (default JUndefined (Js.obj_get "last_activity" item)) = false →
  _expandLastActivity (JObj Plain item) = Ok (JObj Plain item).
Proof.
  intros Hla. unfold _expandLastActivity. cbn [Js.getProp mbind result_bind].
  by rewrite Hla.
Qed.

Lemma expandLastActivity_text item iso :
  iso ≠ "" →
  _expandLastActivity (JObj Plain (Js.obj_set "last_activity" (JStr iso) item))
  = Ok (JObj Plain (Js.obj_set "last_activity"
                      (JObj (DateObj (Date_value (JStr iso))) []) item)).
Proof.
  intros Hiso. unfold _expandLastActivity. cbn [Js.getProp mbind result_bind].
  rewrite obj_get_set_eq. cbn [from_option id].
  rewrite (proj2 (truthy_string iso) Hiso). cbn [negb].
  rewrite Object_assign_plain. cbn [foldl fst snd]. by rewrite obj_set_set.
Qed.

(** C9. What [add] stores under a path, [get] returns for the same path:
    a record without a [last_activity], as it is, and a record whose
    [last_activity] is a date, with the date restored from the ISO string
    it was stored as, wherever JSON gives the record back from its own
    text.  After [remove], and for a key the table does not hold, [get]
    resolves to [undefined]; it does not reject. *)
Theorem add_get_remove (path : string) (s : redis) :
  (∀ item,
     JSON_stringify (JObj Plain item) ≠ "" →
     JSON_parse (JSON_stringify (JObj Plain item)) = Ok (JObj Plain item) →
     Js.truthy (default JUndefined (Js.obj_get "last_activity" item)) = false →
     (get path (add path (JObj Plain item) s).2).1 = Ok (JObj Plain item))
  ∧ (∀ item t iso,
       Js.obj_get "last_activity" item = Some (JObj (DateObj (Some t)) []) →
       JSON_stringify (JObj Plain item) ≠ "" →
       JSON_parse (JSON_stringify (JObj Plain item))
       = Ok (JObj Plain (Js.obj_set "last_activity" (JStr iso) item)) →
       iso ≠ "" → Date_value (JStr iso) = Some t →
       (get path (add path (JObj Plain item) s).2).1 = Ok (JObj Plain item))
  ∧ (get path (remove path s).2).1 = Ok JUndefined
  ∧ (table s !! cleanPath path = None → (get path s).1 = Ok JUndefined).
Proof.
  split; [|split; [|split]].
  - intros item Hne Hjson Hla.
    rewrite get_add, scrub_object. cbn [from_option id].
    rewrite expand_text, Hjson by done. by apply expandLastActivity_without.
  - intros item t iso Hla Hne Hjson Hiso Hdate.
    rewrite get_add, scrub_object. cbn [from_option id].
    rewrite expand_text, Hjson by done. cbn [mbind result_bind].
    rewrite expandLastActivity_text, Hdate by done.
    by rewrite (obj_set_same _ _ _ Hla).
  - apply get_remove.
  - intros Hk. rewrite get_run. cbn [fst]. by rewrite Hk.
Qed.

(** C10. [add] and [remove] write one field, the normalised key of their
    path: the table is the same at every other key, and [get] of a path
    with another key resolves as before. *)
Theorem add_remove_frame (p q : string) (r : jsval) (s : redis) :
  cleanPath p ≠ cleanPath q →
  (get q (add p r s).2).1 = (get q s).1
  ∧ (get q (remove p s).2).1 = (get q s).1
  ∧ (∀ k, k ≠ cleanPath p →
       table (add p r s).2 !! k = table s !! k
       ∧ table (remove p s).2 !! k = table s !! k).
Proof.
  intros Hne. rewrite add_run, remove_run, !get_run. cbn [fst snd].
  rewrite !table_put, lookup_insert_ne, lookup_delete_ne by done.
  repeat split; [by rewrite lookup_insert_ne | by rewrite lookup_delete_ne].
Qed.

Lemma update_run path d s :
  update path d s
  = let key := cleanPath path in
    let s1 := logged (HGET REDIS_KEY_PREFIX (cleanPath key)) s (db s) in
    match _expand (table s !! cleanPath key) with
    | Ok item =>
        match Js.Object_assign item d with
        | Ok merged => add key merged s1
        | Throw e => (Throw e, s1)
        end
    | Throw e => (Throw e, s1)
    end.
Proof.
  unfold update. cbv zeta. unfold mbind at 1, M_bind at 1. rewrite get_run.
  destruct (_expand _) as [item|e]; [|reflexivity].
  unfold mbind, M_bind, lift. by destruct (Js.Object_assign item d).
Qed.

(** C3, as the code has it.  [update] normalises the path, and [get] and
    [add], to which it hands the key, normalise it once more: the field it
    reads and writes is the key of the key of the path, which is the key
    of the path where [cleanPath] leaves that unchanged.  With no record
    under that field (no field, or an empty value) [update] rejects, with
    the TypeError of [Object.assign] on [undefined], and writes nothing;
    with a record, it writes back under the same field the record in
    which every field of the partial route has its new value and every
    other field is kept. *)
Theorem update_merges (path : string) (d : jsval) (s : redis) :
  ((table s !! cleanPath (cleanPath path) = None
    ∨ table s !! cleanPath (cleanPath path) = Some "") →
     update path d s
     = (Throw TypeError,
        {| db := db s;
           log := log s ++ [HGET REDIS_KEY_PREFIX (cleanPath (cleanPath path))] |}))
  ∧ (∀ item partial,
       (get (cleanPath path) s).1 = Ok (JObj Plain item) →
       d = JObj Plain partial → NoDup partial.*1 →
       ∃ merged,
         (∀ f, Js.obj_get f merged
               = match Js.obj_get f partial with
                 | Some v => Some v
                 | None => Js.obj_get f item
                 end)
         ∧ (update path d s).1 = Ok 0
         ∧ table (update path d s).2
           = <[cleanPath (cleanPath path) := JSON_stringify (JObj Plain merged)]>
               (table s)
         ∧ log (update path d s).2
           = log s ++ [HGET REDIS_KEY_PREFIX (cleanPath (cleanPath path));
                       HSET REDIS_KEY_PREFIX (cleanPath (cleanPath path))
                            (JSON_stringify (JObj Plain merged))])
  ∧ (cleanPath (cleanPath path) = cleanPath path →
     (table s !! cleanPath path = None → (update path d s).1 = Throw TypeError)
     ∧ (∀ item partial,
          (get path s).1 = Ok (JObj Plain item) →
          d = JObj Plain partial → NoDup partial.*1 →
          ∃ merged,
            (∀ f, Js.obj_get f merged
                  = match Js.obj_get f partial with
                    | Some v => Some v
                    | None => Js.obj_get f item
                    end)
            ∧ (update path d s).1 = Ok 0
            ∧ table (update path d s).2
              = <[cleanPath path := JSON_stringify (JObj Plain merged)]> (table s))).
Proof.
  assert (∀ item partial,
    (get (cleanPath path) s).1 = Ok (JObj Plain item) →
    d = JObj Plain partial → NoDup partial.*1 →
    ∃ merged,
      (∀ f, Js.obj_get f merged
            = match Js.obj_get f partial with
              | Some v => Some v
              | None => Js.obj_get f item
              end)
      ∧ (update path d s).1 = Ok 0
      ∧ table (update path d s).2
        = <[cleanPath (cleanPath path) := JSON_stringify (JObj Plain merged)]>
            (table s)
      ∧ log (update path d s).2
        = log s ++ [HGET REDIS_KEY_PREFIX (cleanPath (cleanPath path));
                    HSET REDIS_KEY_PREFIX (cleanPath (cleanPath path))
                         (JSON_stringify (JObj Plain merged))]) as Hmerge.
  { intros item partial Hget -> Hdup. rewrite update_run. cbv zeta.
    rewrite get_run in Hget. cbn [fst] in Hget.
    rewrite Hget, Object_assign_plain, add_run, scrub_object.
    cbn [from_option id fst snd].
    eexists. split; [intros f; by apply obj_get_assign|].
    rewrite table_logged, table_put.
    destruct (table s !! cleanPath (cleanPath path)) as [raw|] eqn:Hraw.
    - split; [done|]. split; [done|].
      unfold logged. cbn [log]. by rewrite <- app_assoc.
    - by rewrite (proj1 expand_absent) in Hget. }
  split; [|split; [exact Hmerge|]].
  - rewrite update_run. cbv zeta. intros [-> | ->].
    + by rewrite (proj1 expand_absent).
    + by rewrite (proj2 expand_absent).
  - intros Hkey. split.
    + intros Hnone. rewrite update_run. cbv zeta.
      by rewrite Hkey, Hnone, (proj1 expand_absent).
    + intros item partial Hget Hd Hdup. rewrite get_run in Hget.
      destruct (Hmerge item partial) as (merged & Hf & Hreply & Htable & _);
        [by rewrite get_run, Hkey | done | done |].
      exists merged. split; [done|]. split; [done|]. by rewrite Htable, Hkey.
Qed.

Lemma expandRoutes_ok entries routes :
  NoDup entries.*1 →
  Forall (λ kv, isOk (_expand (Some kv.2)) = true) entries →
  ∃ routes', expandRoutes entries routes = Ok routes'
    ∧ ∀ k, routes' !! k
           = match (list_to_map entries : gmap string string) !! k with
             | Some raw => match _expand (Some raw) with
                           | Ok v => Some v
                           | Throw _ => None
                           end
             | None => routes !! k
             end.
Proof.
  revert routes. induction entries as [|[k0 raw0] rest IH]; intros routes Hdup Hok.
  - exists routes. split; [done|]. intros k.
    change (list_to_map [] : gmap string string) with (∅ : gmap string string).
    by rewrite lookup_empty.
  - rewrite fmap_cons, NoDup_cons in Hdup. destruct Hdup as [Hk0 Hdup].
    apply Forall_cons in Hok as [Hok0 Hok]. cbn [fst snd] in *.
    cbn [expandRoutes]. destruct (_expand (Some raw0)) as [v0|] eqn:Hv0; [|done].
    cbn [mbind result_bind].
    destruct (IH (<[k0 := v0]> routes) Hdup Hok) as (routes' & -> & Hlook).
    exists routes'. split; [done|]. intros k. rewrite Hlook. cbn [list_to_map foldr].
    destruct (decide (k = k0)) as [->|Hne].
    + rewrite (not_elem_of_list_to_map_1 _ _ Hk0), !lookup_insert_eq. cbn [snd].
      by rewrite Hv0.
    + by rewrite !lookup_insert_ne.
Qed.

Lemma expandRoutes_throws entries routes :
  Exists (λ kv, isOk (_expand (Some kv.2)) = false) entries →
  ∃ e, expandRoutes entries routes = Throw e.
Proof.
  revert routes. induction entries as [|[k raw] rest IH]; intros routes Hex.
  - by apply Exists_nil in Hex.
  - cbn [expandRoutes]. destruct (_expand (Some raw)) as [v|e] eqn:Hv; [|eauto].
    cbn [mbind result_bind]. apply IH.
    apply Exists_cons in Hex as [Hex|Hex]; [|done].
    cbn [snd] in Hex. by rewrite Hv in Hex.
Qed.

(** [getAll] on a table whose values all expand: one [hgetall], and the
    map from every key of the table to its expanded value. *)
Lemma getAll_ok s :
  decodes s →
  ∃ routes, getAll s = (Ok routes, logged (HGETALL REDIS_KEY_PREFIX) s (db s))
    ∧ ∀ k, routes !! k
           = match table s !! k with
             | Some raw => match _expand (Some raw) with
                           | Ok v => Some v
                           | Throw _ => None
                           end
             | None => None
             end.
Proof.
  intros Hdec. unfold decodes in Hdec. rewrite map_Forall_to_list in Hdec.
  destruct (expandRoutes_ok (map_to_list (table s)) ∅) as (routes & Hrun & Hlook).
  - apply NoDup_fst_map_to_list.
  - eapply Forall_impl; [exact Hdec|]. by intros [k raw].
  - exists routes. split.
    + unfold getAll, mbind, M_bind, ioredis.hgetall, lift. fold (table s).
      by rewrite Hrun.
    + intros k. rewrite Hlook, list_to_map_to_list, lookup_empty. done.
Qed.

(** X2. One stored value that does not expand makes [getAll], and with
    it [getTarget] of every path, reject. *)
Lemma getTarget_rejects_undecodable s k raw path :
  table s !! k = Some raw → isOk (_expand (Some raw)) = false →
  ∃ e, (getAll s).1 = Throw e ∧ (getTarget path s).1 = Throw e.
Proof.
  intros Hk Hraw.
  destruct (expandRoutes_throws (map_to_list (table s)) ∅) as [e He].
  { apply Exists_exists. exists (k, raw). split; [|done].
    by rewrite elem_of_map_to_list. }
  exists e. unfold getTarget, getAll, mbind, M_bind, ioredis.hgetall, lift.
  cbv zeta. fold (table s). by rewrite He.
Qed.

Lemma filter_first {A} (P : A → Prop) `{!∀ x, Decision (P x)} (l : list A) :
  match filter P l with
  | [] => ∀ x, x ∈ l → ¬ P x
  | k :: _ => ∃ before after,
                l = before ++ k :: after ∧ (∀ x, x ∈ before → ¬ P x) ∧ P k
  end.
Proof.
  induction l as [|a l IH].
  - cbn. by intros x ?%elem_of_nil.
  - rewrite filter_cons. destruct (decide (P a)) as [Ha|Ha].
    + exists [], l. split; [done|]. split; [|done]. by intros x ?%elem_of_nil.
    + destruct (filter P l) as [|k rest].
      * intros x [->|Hx]%elem_of_cons; auto.
      * destruct IH as (before & after & -> & Hb & Hk).
        exists (a :: before), after. split; [done|]. split; [|done].
        intros x [->|Hx]%elem_of_cons; auto.
Qed.

Lemma validRoute_registered s routes k :
  (∀ k, routes !! k
        = match table s !! k with
          | Some raw => match _expand (Some raw) with
                        | Ok v => Some v
                        | Throw _ => None
                        end
          | None => None
          end) →
  (validRoute routes k = true → registered s k (default JUndefined (routes !! k)))
  ∧ (∀ v, registered s k v → validRoute routes k = true).
Proof.
  intros Hlook. unfold validRoute, registered. rewrite Hlook. split.
  - destruct (table s !! k) as [raw|]; [|done].
    destruct (_expand (Some raw)) as [v|] eqn:Hv; [|done]. cbn. eauto.
  - intros v (raw & -> & -> & Hv). done.
Qed.


Lemma clear_run keepRoot s :
  clear keepRoot s
  = let queue := HDEL REDIS_KEY_PREFIX
                   <$> filter (λ key, keepRoot = true ∧ key ≠ pathSep)
                              (map_to_list (table s)).*1 in
    ((Ok (ioredis.run_queue (db s) queue).2),
     {| db := (ioredis.run_queue (db s) queue).1;
        log := log s ++ [HKEYS REDIS_KEY_PREFIX; EXEC queue] |}).
Proof.
  unfold clear, mbind, M_bind, ioredis.hkeys, ioredis.exec. cbv zeta.
  fold (table s). unfold logged at 1. cbn [db log].
  destruct (ioredis.run_queue _ _) as [d replies]. unfold logged. cbn [fst snd db log].
  by rewrite <- app_assoc.
Qed.

(** X1. With [keepRoot] true, [clear] removes every key but the root,
    which stays as it was, and sends the deletions as one [exec]. *)
Lemma clear_keeps_root s :
  (∀ k, table (clear true s).2 !! k = if decide (k = "/") then table s !! k else None)
  ∧ ∃ queue, log (clear true s).2 = log s ++ [HKEYS REDIS_KEY_PREFIX; EXEC queue].
Proof.
  rewrite clear_run. cbv zeta. cbn [snd log]. split; [|eauto].
  intros k. unfold table at 1. cbn [db]. rewrite run_queue_hdel. fold (table s).
  unfold pathSep. destruct (decide (k = "/")) as [->|Hne].
  - rewrite decide_False; [done|]. rewrite list_elem_of_filter. tauto.
  - destruct (table s !! k) as [raw|] eqn:Hk.
    + rewrite decide_True; [done|]. rewrite list_elem_of_filter. split; [done|].
      apply list_elem_of_fmap. exists (k, raw). split; [done|].
      by apply elem_of_map_to_list.
    + by case_decide.
Qed.

(** With [keepRoot] false the filter passes no key: the queue is empty and
    the server is left as it was. *)
Lemma clear_without_keepRoot s :
  clear false s
  = (Ok [], {| db := db s; log := log s ++ [HKEYS REDIS_KEY_PREFIX; EXEC []] |}).
Proof.
  rewrite clear_run. cbv zeta.
  assert (filter (λ key, false = true ∧ key ≠ pathSep) (map_to_list (table s)).*1 = [])
    as ->; [|done].
  induction (map_to_list (table s)).*1 as [|k rest IH]; [done|].
  rewrite filter_cons, decide_False; [done|]. by intros [? _].
Qed.

End Store.
(** ** The store on the reference platform *)
Section Runs.
Import Reference.
#[local] Existing Instance runtime.

Lemma server_decodes : decodes server.
Proof. apply (bool_decide_unpack _). vm_compute. exact I. Qed.



Lemma getTarget_rejects_undecodable_witness :
  ∃ e, (getAll {| db := {[ REDIS_KEY_PREFIX := <["/other" := "oops"]> (table server) ]};
                  log := [] |}).1 = Throw e
       ∧ (getTarget "/foo/bar/baz"
            {| db := {[ REDIS_KEY_PREFIX := <["/other" := "oops"]> (table server) ]};
               log := [] |}).1 = Throw e.
Proof.
  apply (getTarget_rejects_undecodable _ "/other" "oops"); vm_compute; reflexivity.
Defined.

Lemma update_merges_witness :
  (update "/nowhere/" (JObj Plain [("user", JStr "bob")]) server).1 = Throw TypeError
  ∧ ∃ merged,
      Js.obj_get "target" merged = Some (JStr "http://127.0.0.1:8002")
      ∧ Js.obj_get "user" merged = Some (JStr "bob")
      ∧ (update "/foo/bar/" (JObj Plain [("user", JStr "bob")]) server).1 = Ok 0
      ∧ table (update "/foo/bar/" (JObj Plain [("user", JStr "bob")]) server).2
        !! "/foo/bar"
        = Some (stringify (JObj Plain merged)).
Proof.
  split.
  - destruct (update_merges "/nowhere/" (JObj Plain [("user", JStr "bob")]) server)
      as (_ & _ & Hfixed).
    apply Hfixed; [reflexivity | vm_compute; reflexivity].
  - assert (cleanPath (cleanPath "/foo/bar/") = cleanPath "/foo/bar/") as Hkey
      by reflexivity.
    destruct (update_merges "/foo/bar/" (JObj Plain [("user", JStr "bob")]) server)
      as (_ & _ & Hfixed).
    destruct (proj2 (Hfixed Hkey) route_foo_bar [("user", JStr "bob")])
      as (merged & Hmerged & Hreply & Htable).
    + vm_compute. reflexivity.
    + reflexivity.
    + apply NoDup_singleton.
    + exists merged. rewrite !Hmerged, Htable.
      do 3 (split; [reflexivity|]). apply lookup_insert_eq.
Defined.

(** A path with no record under its key on which [update] does not fail:
    the key of [/#] is the empty string, the table has no field of that
    name, and [update] merges the partial route into the record of the
    root, the key of the empty string.  And where [update] does fail, on a
    key that normalisation leaves unchanged, the exception is a
    TypeError. *)
Lemma update_fragment_rewrites_root :
  cleanPath "/#" = ""
  ∧ table server !! cleanPath "/#" = None
  ∧ (update "/#" (JObj Plain [("user", JStr "bob")]) server).1 = Ok 0
  ∧ table (update "/#" (JObj Plain [("user", JStr "bob")]) server).2 !! "/"
    = Some (stringify (JObj Plain [("target", JStr "http://127.0.0.1:8000");
                                   ("user", JStr "bob")]))
  ∧ table server !! cleanPath "/nowhere" = None
  ∧ (update "/nowhere" (JObj Plain [("user", JStr "bob")]) server).1
    = Throw TypeError.
Proof. repeat (split; [vm_compute; reflexivity|]). vm_compute. reflexivity. Qed.

Lemma add_get_remove_witness :
  (get "/foo/" (add "/foo/" (JObj Plain route_foo) server).2).1
  = Ok (JObj Plain route_foo)
  ∧ (get "/late/" (add "/late/" (JObj Plain route_dated) server).2).1
    = Ok (JObj Plain route_dated)
  ∧ (get "/foo/" (remove "/foo/" server).2).1 = Ok JUndefined
  ∧ (get "/nowhere" server).1 = Ok JUndefined.
Proof.
  split; [|split; [|split]].
  - apply (proj1 (add_get_remove "/foo/" server)); [discriminate | reflexivity..].
  - apply (proj1 (proj2 (add_get_remove "/late/" server))
             route_dated 1700000000123 "2023-11-14T22:13:20.123Z");
      [reflexivity | discriminate | reflexivity | discriminate | reflexivity].
  - apply (proj1 (proj2 (proj2 (add_get_remove "/foo/" server)))).
  - apply (proj2 (proj2 (proj2 (add_get_remove "/nowhere" server)))).
    vm_compute. reflexivity.
Defined.

Lemma add_remove_frame_witness :
  (get "/foo/bar" (add "/foo" (JObj Plain route_dated) server).2).1
  = (get "/foo/bar" server).1
  ∧ (get "/foo/bar" (remove "/foo" server).2).1 = (get "/foo/bar" server).1.
Proof.
  destruct (add_remove_frame "/foo" "/foo/bar" (JObj Plain route_dated) server)
    as (Hadd & Hremove & _); [discriminate | by split].
Defined.

(** C2, on the code. [clear(false)] on a table that holds the root and two
    routes: the queue sent to the server is empty, and the root and the
    two routes are still there. *)
Theorem clear_false_deletes_nothing :
  (clear false server).1 = Ok []
  ∧ log (clear false server).2 = [HKEYS REDIS_KEY_PREFIX; EXEC []]
  ∧ table (clear false server).2 = table server
  ∧ is_Some (table (clear false server).2 !! "/")
  ∧ is_Some (table (clear false server).2 !! "/foo")
  ∧ is_Some (table (clear false server).2 !! "/foo/bar").
Proof.
  rewrite clear_without_keepRoot. cbn [fst snd log].
  do 3 (split; [reflexivity|]). repeat split; vm_compute; eauto.
Qed.

(** [clear(true)] on the same table: one [exec] of two deletions, and only
    the root is left. *)
Example clear_true_keeps_root :
  (map_to_list (table (clear true server).2)).*1 = ["/"]
  ∧ ∃ a b, log (clear true server).2
           = [HKEYS REDIS_KEY_PREFIX;
              EXEC [HDEL REDIS_KEY_PREFIX a; HDEL REDIS_KEY_PREFIX b]].
Proof.
  split; [vm_compute; reflexivity|].
  eexists _, _. vm_compute. reflexivity.
Qed.

End Runs.

(** ** More on the cluster parsers *)
Section ClusterFormat.
Import JsString Cluster.

Lemma split_no_occurrence s sep : includes s sep = false → split s sep = [s].
Proof.
  unfold split. induction s as [|d t IH]; [reflexivity|].
  cbn [includes split_from]. intros Hi. apply orb_false_iff in Hi as [Hp Hi].
  by rewrite Hp, (IH Hi).
Qed.

Lemma split_after_marker x :
  includes x "cluster://" = false →
  split ("cluster://" +:+ x) "cluster://" = [""; x].
Proof.
  intros Hx. rewrite !app_cons. change ("" +:+ x) with x.
  unfold split. cbn [split_from String.length Nat.sub].
  assert (String.prefix "cluster://"
            (String "c" (String "l" (String "u" (String "s" (String "t"
              (String "e" (String "r" (String ":" (String "/" (String "/" x))))))))))
          = true) as ->.
  { apply prefix_spec. by exists x. }
  f_equal. by apply split_no_occurrence.
Qed.

(** Splitting at a one-character separator distributes over joining two
    strings with it. *)
Lemma split_concat a b c :
  split (a +:+ String c b) (String c "") = split a (String c "") ++ split b (String c "").
Proof.
  induction a as [|d t IH].
  - change ("" +:+ String c b) with (String c b). by rewrite split_leading_sep.
  - rewrite app_cons. unfold split in *. cbn [split_from].
    assert (String.prefix (String c "") (String d (t +:+ String c b))
            = String.prefix (String c "") (String d t)) as ->.
    { simpl. destruct (ascii_dec c d); [|reflexivity]. by destruct t. }
    destruct (String.prefix (String c "") (String d t)).
    + cbn [String.length Nat.sub]. by rewrite IH.
    + rewrite IH. pose proof (split_from_nonempty (String c "") 0 t).
      by destruct (split_from (String c "") 0 t).
Qed.

Lemma omap_nonempty {A} (f : string → A) (l : list string) :
  omap (λ h, if decide (h = "") then None else Some (f h)) l
  = f <$> filter (λ h, h ≠ "") l.
Proof.
  induction l as [|h rest IH]; [done|]. rewrite filter_cons. cbn.
  destruct (decide (h = "")) as [->|Hne].
  - by rewrite decide_False by (by intros ?).
  - by rewrite decide_True, fmap_cons, IH by done.
Qed.

(** X4. [parseURL] succeeds exactly on the strings that hold the marker
    [cluster://]; on any other string it throws a TypeError (it does not
    return [null]). *)
Theorem parseURL_requires_marker (url : string) :
  isOk (parseURL url) = isCluster url
  ∧ (isCluster url = false → parseURL url = Throw TypeError).
Proof.
  assert (isCluster url = false → parseURL url = Throw TypeError) as Hno.
  { unfold isCluster, parseURL. intros Hi. by rewrite (split_no_occurrence _ _ Hi). }
  split; [|done]. destruct (isCluster url) eqn:Hi.
  - by destruct (parseURL_total url Hi) as [c ->].
  - by rewrite Hno.
Qed.

(** X5. The layout [cluster://[password@]hosts]: without an [@] the whole
    rest is the host list and the password is [null]; with one, the text
    before the first [@] is the password, less one leading colon, and the
    host list is the text up to the next [@]; whatever follows a second
    [@] is dropped. *)
Theorem parseURL_layout :
  (∀ url1,
     includes url1 "@" = false → includes url1 "cluster://" = false →
     parseURL ("cluster://" +:+ url1)
     = Ok {| hosts := parseHosts url1; password := None |})
  ∧ (∀ pw hh,
       includes pw "@" = false → includes hh "@" = false →
       includes (pw +:+ "@" +:+ hh) "cluster://" = false →
       parseURL ("cluster://" +:+ pw +:+ "@" +:+ hh)
       = Ok {| hosts := parseHosts hh;
               password := Some (if startsWith pw ":" then substring1 pw else pw) |})
  ∧ (∀ pw hh tail,
       includes pw "@" = false → includes hh "@" = false →
       includes (pw +:+ "@" +:+ hh +:+ "@" +:+ tail) "cluster://" = false →
       parseURL ("cluster://" +:+ pw +:+ "@" +:+ hh +:+ "@" +:+ tail)
       = Ok {| hosts := parseHosts hh;
               password := Some (if startsWith pw ":" then substring1 pw else pw) |}).
Proof.
  split; [|split].
  - intros url1 Hat Hm. unfold parseURL. rewrite (split_after_marker _ Hm).
    cbn [lookup list_lookup]. by rewrite Hat.
  - intros pw hh Hpw Hhh Hm. unfold parseURL. rewrite (split_after_marker _ Hm).
    cbn [lookup list_lookup].
    assert (includes (pw +:+ "@" +:+ hh) "@" = true) as ->
      by (apply includes_spec; by exists pw, hh).
    change ("@" +:+ hh) with (String "@" hh).
    by rewrite (split_app_sep pw hh "@"%char Hpw), (split_no_sep hh "@"%char Hhh).
  - intros pw hh tail Hpw Hhh Hm. unfold parseURL. rewrite (split_after_marker _ Hm).
    cbn [lookup list_lookup].
    assert (includes (pw +:+ "@" +:+ hh +:+ "@" +:+ tail) "@" = true) as ->
      by (apply includes_spec; by exists pw, (hh +:+ "@" +:+ tail)).
    change ("@" +:+ hh +:+ "@" +:+ tail) with (String "@" (hh +:+ String "@" tail)).
    by rewrite (split_app_sep pw _ "@"%char Hpw), (split_app_sep hh _ "@"%char Hhh).
Qed.

Lemma parseURL_layout_witness :
  parseURL ("cluster://" +:+ "10.0.0.1:7000,10.0.0.2")
  = Ok {| hosts := parseHosts "10.0.0.1:7000,10.0.0.2"; password := None |}
  ∧ parseURL ("cluster://" +:+ ":s3cret" +:+ "@" +:+ "n1:7000,n2:7001")
    = Ok {| hosts := parseHosts "n1:7000,n2:7001"; password := Some "s3cret" |}
  ∧ parseURL ("cluster://" +:+ "pw" +:+ "@" +:+ "n1,pw" +:+ "@" +:+ "n2")
    = Ok {| hosts := parseHosts "n1,pw"; password := Some "pw" |}.
Proof.
  destruct parseURL_layout as (Hbare & Hone & Htwo).
  split; [|split].
  - apply Hbare; reflexivity.
  - apply (Hone ":s3cret" "n1:7000,n2:7001"); reflexivity.
  - apply (Htwo "pw" "n1,pw" "n2"); reflexivity.
Defined.

(** X6. The host list is read segment by segment: the nodes of [a,b] are
    the nodes of [a] followed by the nodes of [b], the empty string has no
    node, and in all the list holds one node for each segment that is not
    empty, in the order of the segments. *)
Theorem parseHosts_by_segment :
  (∀ a b, parseHosts (a +:+ "," +:+ b) = parseHosts a ++ parseHosts b)
  ∧ parseHosts "" = []
  ∧ (∀ url1, parseHosts url1
             = parseHost <$> filter (λ h, h ≠ "") (split url1 ",")).
Proof.
  split; [|split].
  - intros a b. rewrite !parseHosts_segments.
    change ("," +:+ b) with (String "," b). by rewrite split_concat, omap_app.
  - reflexivity.
  - intros url1. by rewrite parseHosts_segments, omap_nonempty.
Qed.

(** X7. A segment is cut at its colons: the host is the text before the
    first colon and the port is read from the text between the first colon
    and the second; what follows a second colon is dropped. *)
Theorem parseHost_colons :
  (∀ ip p,
     includes ip ":" = false → includes p ":" = false →
     parseHost (ip +:+ ":" +:+ p) = {| host := ip; port := Some (Number p) |})
  ∧ (∀ ip p tail,
       includes ip ":" = false → includes p ":" = false →
       parseHost (ip +:+ ":" +:+ p +:+ ":" +:+ tail)
       = {| host := ip; port := Some (Number p) |}).
Proof.
  split.
  - intros ip p Hip Hp. unfold parseHost.
    assert (includes (ip +:+ ":" +:+ p) ":" = true) as ->
      by (apply includes_spec; by exists ip, p).
    change (":" +:+ p) with (String ":" p).
    by rewrite (split_app_sep ip p ":"%char Hip), (split_no_sep p ":"%char Hp).
  - intros ip p tail Hip Hp. unfold parseHost.
    assert (includes (ip +:+ ":" +:+ p +:+ ":" +:+ tail) ":" = true) as ->
      by (apply includes_spec; by exists ip, (p +:+ ":" +:+ tail)).
    change (":" +:+ p +:+ ":" +:+ tail) with (String ":" (p +:+ String ":" tail)).
    by rewrite (split_app_sep ip _ ":"%char Hip), (split_app_sep p _ ":"%char Hp).
Qed.

Lemma parseHost_colons_witness :
  parseHost ("redis-1" +:+ ":" +:+ "seven")
  = {| host := "redis-1"; port := Some (OtherNumber "seven") |}
  ∧ parseHost ("fe80" +:+ ":" +:+ "" +:+ ":" +:+ "1:6379")
    = {| host := "fe80"; port := Some (Int 0) |}.
Proof.
  destruct parseHost_colons as (Hone & Htwo). split.
  - apply (Hone "redis-1" "seven"); reflexivity.
  - apply (Htwo "fe80" "" "1:6379"); reflexivity.
Defined.

End ClusterFormat.

Section PerNode.
Import JsString.

Lemma perNode_parseHost_ok h :
  isOk (ClusterPerNode.parseHost h) = includes h "@"
  ∧ (includes h "@" = false → ClusterPerNode.parseHost h = Throw TypeError).
Proof.
  unfold ClusterPerNode.parseHost. destruct (includes h "@") eqn:Hat; [|done].
  destruct (split_includes h "@") as (s0 & target & rest & ->); [done..|].
  split; [|done]. destruct (includes target ":"); [|done].
  by destruct (split target ":") as [|ip [|port ?]].
Qed.

Lemma perNode_parseHosts_ok acc segments :
  Forall (λ h, includes h "@" = true) segments →
  ∃ hosts, ClusterPerNode.parseHosts acc segments = Ok hosts
           ∧ length hosts = (length acc + length segments)%nat.
Proof.
  revert acc. induction segments as [|h rest IH]; intros acc Hall.
  - exists acc. cbn. split; [done|lia].
  - apply Forall_cons in Hall as [Hh Hrest]. cbn [ClusterPerNode.parseHosts].
    pose proof (proj1 (perNode_parseHost_ok h)) as Hok. rewrite Hh in Hok.
    destruct (ClusterPerNode.parseHost h) as [n|]; [|done].
    destruct (IH (acc ++ [n]) Hrest) as (hosts & -> & Hlen).
    exists hosts. split; [done|]. rewrite length_app in Hlen. cbn in *. lia.
Qed.

Lemma perNode_parseHosts_throws acc segments :
  Exists (λ h, includes h "@" = false) segments →
  ClusterPerNode.parseHosts acc segments = Throw TypeError.
Proof.
  revert acc. induction segments as [|h rest IH]; intros acc Hex.
  - by apply Exists_nil in Hex.
  - cbn [ClusterPerNode.parseHosts].
    destruct (includes h "@") eqn:Hh.
    + pose proof (proj1 (perNode_parseHost_ok h)) as Hok. rewrite Hh in Hok.
      destruct (ClusterPerNode.parseHost h) as [n|]; [|done].
      apply IH. apply Exists_cons in Hex as [Hex|Hex]; [congruence|done].
    + by rewrite (proj2 (perNode_parseHost_ok h) Hh).
Qed.

Lemma split_pieces_without s c (x : ascii) :
  x ≠ c → includes s (String x "") = false →
  Forall (λ piece, includes piece (String x "") = false) (split s (String c "")).
Proof.
  intros Hxc. unfold split. induction s as [|d t IH]; intros Hi.
  - by repeat constructor.
  - cbn [includes] in Hi. apply orb_false_iff in Hi as [Hp Hi].
    specialize (IH Hi). cbn [split_from].
    destruct (String.prefix (String c "") (String d t)).
    + cbn [String.length Nat.sub]. constructor; [done|exact IH].
    + pose proof (split_from_nonempty (String c "") 0 t) as Hne.
      destruct (split_from (String c "") 0 t) as [|piece pieces]; [done|].
      apply Forall_cons in IH as [Hpiece Hpieces]. constructor; [|done].
      cbn [includes]. rewrite Hpiece, orb_false_r.
      destruct (String.prefix (String x "") (String d piece)) eqn:Hpre; [|done].
      apply prefix_char in Hpre as ->.
      by rewrite (proj2 (prefix_char d d t) eq_refl) in Hp.
Qed.

(** X8. The second cluster parser, where every segment carries its own
    password: it returns a list, with one node for each segment,
    exactly when every comma-separated segment holds an [@]; one segment
    without it (a node without a password, or the empty segment after a
    trailing comma) makes it throw a TypeError, and so does every string
    without any [@]. *)
Theorem perNode_parseURL_needs_passwords (url url0 : string) :
  split url "cluster://" !! 1%nat = Some url0 →
  (Forall (λ h, includes h "@" = true) (split url0 ",") →
     ∃ hosts, ClusterPerNode.parseURL url = Ok hosts
              ∧ length hosts = length (split url0 ","))
  ∧ (Exists (λ h, includes h "@" = false) (split url0 ",") →
       ClusterPerNode.parseURL url = Throw TypeError)
  ∧ (includes url0 "@" = false → ClusterPerNode.parseURL url = Throw TypeError).
Proof.
  intros Hurl. unfold ClusterPerNode.parseURL. rewrite Hurl.
  split; [|split].
  - intros Hall. destruct (perNode_parseHosts_ok [] _ Hall) as (hosts & -> & Hlen).
    by exists hosts.
  - apply perNode_parseHosts_throws.
  - intros Hno. apply perNode_parseHosts_throws.
    pose proof (split_pieces_without url0 ","%char "@"%char) as Hpieces.
    specialize (Hpieces ltac:(discriminate) Hno).
    pose proof (split_from_nonempty "," 0 url0) as Hne. unfold split in *.
    destruct (split_from "," 0 url0) as [|piece pieces]; [done|].
    apply Forall_cons in Hpieces as [Hpiece _]. by apply Exists_cons_hd.
Qed.

Lemma perNode_parseURL_needs_passwords_witness :
  (∃ hosts, ClusterPerNode.parseURL "cluster://pw@h1:7000,pw@h2" = Ok hosts
            ∧ length hosts = 2%nat)
  ∧ ClusterPerNode.parseURL "cluster://pw@h1:7000,pw@h2," = Throw TypeError
  ∧ ClusterPerNode.parseURL "cluster://h1:7000,h2:7001" = Throw TypeError.
Proof.
  split; [|split].
  - apply (proj1 (perNode_parseURL_needs_passwords
                    "cluster://pw@h1:7000,pw@h2" "pw@h1:7000,pw@h2" eq_refl)).
    by repeat constructor.
  - apply (proj1 (proj2 (perNode_parseURL_needs_passwords
                    "cluster://pw@h1:7000,pw@h2," "pw@h1:7000,pw@h2," eq_refl))).
    do 2 apply Exists_cons_tl. by apply Exists_cons_hd.
  - by apply (proj2 (proj2 (perNode_parseURL_needs_passwords
                    "cluster://h1:7000,h2:7001" "h1:7000,h2:7001" eq_refl))).
Defined.

End PerNode.

(** ** Construction *)
Section Construction.
Context `{SentinelModule}.

Lemma truthy_reply_string (s : string) : Js.truthy_reply (Some s) = true ↔ s ≠ "".
Proof.
  cbn [Js.truthy_reply]. rewrite negb_true_iff. split.
  - intros Hs ->. discriminate Hs.
  - intros Hs. by apply String.eqb_neq.
Qed.

(** X9. The connection string is [options.redisURI] when that is a
    string that is not empty, whatever the environment holds; otherwise
    the environment variable, when that is not empty; and with neither
    [_getRedisUri] throws an Error that names the variable. *)
Theorem getRedisUri_precedence (opts : options) (env : option string) :
  (∀ uri, redisURI opts = Some uri → uri ≠ "" → _getRedisUri opts env = Ok uri)
  ∧ (∀ e, redisURI opts = None ∨ redisURI opts = Some "" →
          env = Some e → e ≠ "" → _getRedisUri opts env = Ok e)
  ∧ (redisURI opts = None ∨ redisURI opts = Some "" →
     env = None ∨ env = Some "" →
     _getRedisUri opts env
     = Throw (Error "CONFIGURABLE_PROXY_REDIS_URI environment variable must be defined")).
Proof.
  unfold _getRedisUri, or_else. split; [|split].
  - intros uri -> Huri. by rewrite !(proj2 (truthy_reply_string uri) Huri).
  - intros e Hopt -> He.
    destruct Hopt as [-> | ->]; cbn; by rewrite (proj2 (String.eqb_neq e "") He).
  - by intros [-> | ->] [-> | ->].
Qed.

Lemma getRedisUri_precedence_witness :
  _getRedisUri (Options (Some "redis://a:6379")) (Some "redis://b:6379")
  = Ok "redis://a:6379"
  ∧ _getRedisUri (Options (Some "")) (Some "redis://b:6379") = Ok "redis://b:6379"
  ∧ _getRedisUri (Options None) (Some "")
    = Throw (Error "CONFIGURABLE_PROXY_REDIS_URI environment variable must be defined").
Proof.
  split; [|split].
  - by apply (proj1 (getRedisUri_precedence (Options (Some "redis://a:6379"))
                       (Some "redis://b:6379"))).
  - apply (proj1 (proj2 (getRedisUri_precedence (Options (Some ""))
                           (Some "redis://b:6379"))));
      [by right | done | done].
  - apply (proj2 (proj2 (getRedisUri_precedence (Options None) (Some ""))));
      [by left | by right].
Defined.

(** X10. The constructor fails with the exception of [_getRedisUri] when
    there is no connection string.  On a string with the cluster marker it
    builds a cluster client from the parsed configuration, so the [hosts]
    and [password] it reads are always there; on any other string it
    builds a plain client, from the sentinel configuration or from the
    string itself. *)
Theorem constructor_client (opts : options) (env : option string) :
  (∀ e, _getRedisUri opts env = Throw e → constructor opts env = Throw e)
  ∧ (∀ url, _getRedisUri opts env = Ok url → Cluster.isCluster url = true →
       ∃ c, Cluster.parseURL url = Ok c
            ∧ constructor opts env = Ok (NewRedisCluster (ClusterConfiguration c)))
  ∧ (∀ url, _getRedisUri opts env = Ok url → Cluster.isCluster url = false →
       constructor opts env
       = if isSentinel url
         then (λ c, NewRedis (SentinelConfiguration c)) <$> sentinel_parseURL url
         else Ok (NewRedis (StandaloneURI url)))
  ∧ (∀ config, constructor opts env = Ok (NewRedisCluster config) →
       ∃ c, config = ClusterConfiguration c).
Proof.
  unfold constructor, _getRedisConfiguration.
  destruct (_getRedisUri opts env) as [url|e] eqn:Huri; cbn [mbind result_bind].
  - split; [done|]. split; [|split].
    + intros ? [= <-] Hc. rewrite Hc.
      destruct (parseURL_total _ Hc) as [c Hp]. rewrite Hp. by exists c.
    + intros ? [= <-] Hc. rewrite Hc. destruct (isSentinel url); [|done].
      by destruct (sentinel_parseURL url).
    + intros config. destruct (Cluster.isCluster url) eqn:Hc.
      * destruct (parseURL_total _ Hc) as [c Hp]. rewrite Hp. intros [= <-]. eauto.
      * destruct (isSentinel url); [|done]. by destruct (sentinel_parseURL url).
  - split; [by intros ? [= <-]|]. by repeat split.
Qed.

End Construction.

Lemma constructor_client_witness :
  (∃ c, Cluster.parseURL "cluster://pw@n1:7000,n2" = Ok c
        ∧ @constructor Reference.sentinel (Options None) (Some "cluster://pw@n1:7000,n2")
          = Ok (NewRedisCluster (ClusterConfiguration c)))
  ∧ @constructor Reference.sentinel (Options (Some "redis://localhost:6379")) None
    = Ok (NewRedis (StandaloneURI "redis://localhost:6379"))
  ∧ @constructor Reference.sentinel (Options None) None
    = Throw (Error "CONFIGURABLE_PROXY_REDIS_URI environment variable must be defined").
Proof.
  split; [|split].
  - by apply (proj1 (proj2 (@constructor_client Reference.sentinel (Options None)
                              (Some "cluster://pw@n1:7000,n2")))).
  - by apply (proj1 (proj2 (proj2 (@constructor_client Reference.sentinel
                                     (Options (Some "redis://localhost:6379")) None)))
                    "redis://localhost:6379").
  - by apply (proj1 (@constructor_client Reference.sentinel (Options None) None)).
Defined.

(** ** More on the Redis client *)
Section ClientScope.
Import ioredis.

Lemma run_queue_other key key' (fields : list string) d :
  key ≠ key' →
  hash_at key' (run_queue d (HDEL key <$> fields)).1 = hash_at key' d.
Proof.
  intros Hne. revert d. induction fields as [|f rest IH]; intros d; [done|].
  rewrite fmap_cons. cbn [run_queue queued_step].
  specialize (IH (put key (delete f (hash_at key d)) d)).
  destruct (run_queue _ (HDEL key <$> rest)) as [d2 rs]. cbn [fst] in *.
  by rewrite IH, hash_at_put_ne.
Qed.

Lemma filter_none {A} (P : A → Prop) `{!∀ x, Decision (P x)} (l : list A) :
  (∀ x, x ∈ l → ¬ P x) → filter P l = [].
Proof.
  induction l as [|a l IH]; intros Hl; [done|].
  rewrite filter_cons, decide_False by (apply Hl, list_elem_of_here).
  apply IH. intros x Hx. by apply Hl, list_elem_of_further.
Qed.

End ClientScope.

(** ** More on path keys *)
Section KeyPaths.
Context `{Runtime}.
Import JsString.

Lemma join_split s c : join (split s (String c "")) (String c "") = s.
Proof.
  unfold split. induction s as [|d t IH]; [reflexivity|]. cbn [split_from].
  pose proof (split_from_nonempty (String c "") 0 t) as Hne.
  destruct (String.prefix (String c "") (String d t)) eqn:Hp.
  - apply prefix_char in Hp as ->. cbn [String.length Nat.sub].
    destruct (split_from (String d "") 0 t) as [|p ps]; [done|].
    change (join ("" :: p :: ps) (String d "")) with (String d (join (p :: ps) (String d ""))).
    by rewrite IH.
  - destruct (split_from (String c "") 0 t) as [|p ps]; [done|].
    assert (join (String d p :: ps) (String c "") = String d (join (p :: ps) (String c "")))
      as -> by (by destruct ps).
    by rewrite IH.
Qed.

Lemma join_snoc init x sep :
  init ≠ [] → join (init ++ [x]) sep = join init sep +:+ sep +:+ x.
Proof.
  induction init as [|a [|b l] IH]; [done|reflexivity|]. intros _.
  change (join ((a :: b :: l) ++ [x]) sep)
    with (a +:+ sep +:+ join ((b :: l) ++ [x]) sep).
  rewrite IH by done.
  change (join (a :: b :: l) sep) with (a +:+ sep +:+ join (b :: l) sep).
  by rewrite !app_assoc_string.
Qed.

(** The list of ancestors starts with the normalised path itself, when
    that holds a separator. *)
Lemma getKeyPaths_head path :
  includes (cleanPath path) "/" = true →
  ∃ rest, _getKeyPaths path = cleanPath path :: rest.
Proof.
  intros Hsep. unfold _getKeyPaths, pathSep. cbv zeta.
  pose proof (join_split (cleanPath path) "/"%char) as Hjoin.
  destruct (split_includes (cleanPath path) "/") as (a & b & l & Harr); [done..|].
  rewrite Harr in *.
  destruct (exists_last (l := a :: b :: l)) as (init & x & Hlast); [done|].
  assert (init ≠ []) as Hinit by (intros ->; destruct l; discriminate Hlast).
  rewrite Hlast in *. rewrite imap_app, reverse_app. cbn [imap reverse rev_append app].
  rewrite Nat.add_0_r, take_app_length, <- join_snoc, Hjoin by done. eauto.
Qed.

End KeyPaths.

(** ** More on the route store *)
Section StoreMore.
Context `{Runtime}.

(** X11. [get], [getAll] and [getTarget] only read: whether they resolve
    or reject, the database is what it was, and the server has seen one
    command more, an [hget] of the key or an [hgetall]. *)
Theorem reads_leave_database (path : string) (s : redis) :
  (get path s).2
  = {| db := db s; log := log s ++ [HGET REDIS_KEY_PREFIX (cleanPath path)] |}
  ∧ (getAll s).2 = {| db := db s; log := log s ++ [HGETALL REDIS_KEY_PREFIX] |}
  ∧ (getTarget path s).2
    = {| db := db s; log := log s ++ [HGETALL REDIS_KEY_PREFIX] |}.
Proof.
  split; [by rewrite get_run|]. split; [reflexivity|].
  unfold getTarget, getAll, mbind, M_bind, ioredis.hgetall, lift. cbv zeta.
  destruct (expandRoutes _ _) as [routes|e]; [|reflexivity].
  by destruct (filter _ _).
Qed.

(** X12. [add] replaces the whole record: of two [add]s on paths with one
    key the second alone decides the table, and it replies 0, no field
    created. *)
Theorem add_overwrites (p q : string) (r1 r2 : jsval) (s : redis) :
  cleanPath p = cleanPath q →
  table (add q r2 (add p r1 s).2).2 = table (add q r2 s).2
  ∧ (add q r2 (add p r1 s).2).1 = Ok 0.
Proof.
  intros Hkey. rewrite !add_run. cbn [fst snd]. rewrite !table_put, Hkey.
  by rewrite insert_insert_eq, lookup_insert_eq.
Qed.

(** X13. [remove] of a key the table does not hold is no error: it
    replies 0 and the table is as before.  A second [remove] changes
    nothing. *)
Theorem remove_absent (p : string) (s : redis) :
  (table s !! cleanPath p = None →
     (remove p s).1 = Ok 0 ∧ table (remove p s).2 = table s)
  ∧ (remove p (remove p s).2).1 = Ok 0
  ∧ table (remove p (remove p s).2).2 = table (remove p s).2.
Proof.
  rewrite !remove_run. cbn [fst snd]. rewrite !table_put. split; [|split].
  - intros Hk. rewrite Hk. by rewrite delete_id.
  - by rewrite lookup_delete_eq.
  - by rewrite delete_delete_eq.
Qed.

(** X14. [add] of a value that is not truthy ([undefined], [null], 0, the
    empty string, [false]) writes the empty string: the key is in the
    table, [get] resolves to [undefined] for it, and it counts as not
    registered. *)
Theorem add_falsy (p : string) (d : jsval) (s : redis) :
  Js.truthy d = false →
  table (add p d s).2 !! cleanPath p = Some ""
  ∧ (get p (add p d s).2).1 = Ok JUndefined
  ∧ ∀ v, ¬ registered (add p d s).2 (cleanPath p) v.
Proof.
  intros Hd. rewrite add_run, get_run. cbn [fst snd]. rewrite table_put.
  unfold _scrub. rewrite Hd. cbn [from_option id]. rewrite lookup_insert_eq.
  split; [done|]. split; [done|].
  intros v (raw & Hraw & Hexp & Hv). unfold registered in *.
  rewrite table_put, lookup_insert_eq in Hraw. injection Hraw as <-.
  rewrite (proj2 expand_absent) in Hexp. by injection Hexp as <-.
Qed.

(** X15. [get] does not mask a value it cannot decode: text that
    [JSON.parse] refuses makes it reject with the exception of
    [JSON.parse], and the text [null] makes it reject with the TypeError
    of reading [last_activity] of [null].  The empty string is no error:
    [get] resolves to [undefined]. *)
Theorem get_undecodable (p : string) (s : redis) :
  (table s !! cleanPath p = Some "" → (get p s).1 = Ok JUndefined)
  ∧ (∀ raw e, table s !! cleanPath p = Some raw → raw ≠ "" →
       JSON_parse raw = Throw e → (get p s).1 = Throw e)
  ∧ (∀ raw, table s !! cleanPath p = Some raw → raw ≠ "" →
       JSON_parse raw = Ok JNull → (get p s).1 = Throw TypeError).
Proof.
  rewrite get_run. cbn [fst]. split; [|split].
  - by intros ->.
  - intros raw e -> Hraw Hparse. by rewrite expand_text, Hparse.
  - intros raw -> Hraw Hparse. by rewrite expand_text, Hparse.
Qed.

Lemma obj_set_keys k v v' props :
  Js.obj_get k props = Some v' → (Js.obj_set k v props).*1 = props.*1.
Proof.
  induction props as [|[k0 v0] rest IH]; [done|]. cbn [Js.obj_get Js.obj_set].
  destruct (decide (k0 = k)) as [->|Hne]; [done|].
  intros Hg. by rewrite !fmap_cons, IH.
Qed.

(** X16. Expanding a plain object never throws and touches one field: a
    [last_activity] that is truthy becomes the [Date] built from it, a
    [last_activity] that is not (0, the empty string, [null], [false]) is
    left as it is, and every other field, and the order of the fields,
    is kept. *)
Theorem expandLastActivity_one_field (item : list (string * jsval)) :
  ∃ item',
    _expandLastActivity (JObj Plain item) = Ok (JObj Plain item')
    ∧ item'.*1 = item.*1
    ∧ (∀ f, f ≠ "last_activity" → Js.obj_get f item' = Js.obj_get f item)
    ∧ Js.obj_get "last_activity" item'
      = (λ v, if Js.truthy v then JObj (DateObj (Date_value v)) [] else v)
          <$> Js.obj_get "last_activity" item.
Proof.
  unfold _expandLastActivity. cbn [Js.getProp mbind result_bind].
  destruct (Js.obj_get "last_activity" item) as [v|] eqn:Hla; cbn [from_option id].
  - destruct (Js.truthy v) eqn:Hv; cbn [negb].
    + rewrite Object_assign_plain. cbn [foldl fst snd]. eexists.
      split; [done|]. split; [by apply (obj_set_keys _ _ v)|].
      split; [intros f Hf; by apply obj_get_set_ne|].
      rewrite obj_get_set_eq. cbn. by rewrite Hv.
    + exists item. rewrite Hla. cbn. by rewrite Hv.
  - exists item. by rewrite Hla.
Qed.

(** X17. The store works on the hash at [REDIS_KEY_PREFIX] and on no
    other key of the server: [add], [remove], [update] and [clear] leave
    every other hash as it was. *)
Theorem other_keys_untouched (key p : string) (r : jsval) (keepRoot : bool) (s : redis) :
  key ≠ REDIS_KEY_PREFIX →
  ioredis.hash_at key (db (add p r s).2) = ioredis.hash_at key (db s)
  ∧ ioredis.hash_at key (db (remove p s).2) = ioredis.hash_at key (db s)
  ∧ ioredis.hash_at key (db (update p r s).2) = ioredis.hash_at key (db s)
  ∧ ioredis.hash_at key (db (clear keepRoot s).2) = ioredis.hash_at key (db s).
Proof.
  intros Hkey. assert (REDIS_KEY_PREFIX ≠ key) as Hkey' by done.
  split; [|split; [|split]].
  - rewrite add_run. cbn [snd logged db]. by apply hash_at_put_ne.
  - rewrite remove_run. cbn [snd logged db]. by apply hash_at_put_ne.
  - rewrite update_run. cbv zeta.
    destruct (_expand _) as [item|e]; [|done].
    destruct (Js.Object_assign item r) as [merged|e]; [|done].
    rewrite add_run. cbn [snd logged db]. by apply hash_at_put_ne.
  - rewrite clear_run. cbv zeta. cbn [snd db]. by apply run_queue_other.
Qed.

Lemma table_clear_true s k :
  table (clear true s).2 !! k = if decide (k = "/") then table s !! k else None.
Proof.
  rewrite clear_run. cbv zeta. cbn [snd]. unfold table at 1. cbn [db].
  rewrite run_queue_hdel. fold (table s).
  unfold pathSep. destruct (decide (k = "/")) as [->|Hne].
  - rewrite decide_False; [done|]. rewrite list_elem_of_filter. tauto.
  - destruct (table s !! k) as [raw|] eqn:Hk.
    + rewrite decide_True; [done|]. rewrite list_elem_of_filter. split; [done|].
      apply list_elem_of_fmap. exists (k, raw). split; [done|].
      by apply elem_of_map_to_list.
    + by case_decide.
Qed.

(** X18. A second [clear] finds nothing to do: the table after two
    [clear]s is the table after one, and with [keepRoot] true the second
    one queues no deletion. *)
Theorem clear_twice (keepRoot : bool) (s : redis) :
  table (clear keepRoot (clear keepRoot s).2).2 = table (clear keepRoot s).2
  ∧ (clear true (clear true s).2).1 = Ok [].
Proof.
  split.
  - destruct keepRoot.
    + apply map_eq. intros k. rewrite !table_clear_true. by case_decide.
    + by rewrite !clear_without_keepRoot.
  - rewrite (clear_run true (clear true s).2). cbv zeta. cbn [fst].
    rewrite filter_none; [done|].
    intros k Hk [_ Hroot]. apply list_elem_of_fmap in Hk as ([k' raw] & -> & Hin).
    apply elem_of_map_to_list in Hin. rewrite table_clear_true in Hin.
    cbn [fst] in *. by case_decide.
Qed.

(** X19. On a table whose values all expand, [getAll] resolves to a map
    with the keys of the table and no other, each with its expanded
    value; a key whose value is the empty string is kept, with the value
    [undefined]. *)
Theorem getAll_snapshot (s : redis) :
  decodes s →
  ∃ routes,
    (getAll s).1 = Ok routes
    ∧ dom routes = dom (table s)
    ∧ (∀ k raw v, table s !! k = Some raw → _expand (Some raw) = Ok v →
         routes !! k = Some v)
    ∧ (∀ k, table s !! k = Some "" → routes !! k = Some JUndefined).
Proof.
  intros Hdec. destruct (getAll_ok s Hdec) as (routes & Hrun & Hlook).
  exists routes. rewrite Hrun. split; [done|]. split; [|split].
  - apply set_eq. intros k. rewrite !elem_of_dom, Hlook.
    destruct (table s !! k) as [raw|] eqn:Hk; [|by split; intros [? ?]].
    pose proof (map_Forall_lookup_1 _ _ _ _ Hdec Hk) as Hok. cbn in Hok.
    destruct (_expand (Some raw)); [|done]. split; eauto.
  - intros k raw v Hk Hv. by rewrite Hlook, Hk, Hv.
  - intros k Hk. by rewrite Hlook, Hk.
Qed.

Lemma getTarget_run s :
  decodes s →
  ∃ routes,
    (∀ k, routes !! k
          = match table s !! k with
            | Some raw => match _expand (Some raw) with
                          | Ok v => Some v
                          | Throw _ => None
                          end
            | None => None
            end)
    ∧ ∀ path,
        (getTarget path s).1
        = Ok match filter (λ route, validRoute routes route = true)
                          (_getKeyPaths (cleanPath path)) with
             | [] => None
             | k :: _ => Some {| prefix := k; data := default JUndefined (routes !! k) |}
             end.
Proof.
  intros Hdec. destruct (getAll_ok s Hdec) as (routes & Hall & Hlook).
  exists routes. split; [done|]. intros path.
  unfold getTarget. cbv zeta. unfold mbind at 1, M_bind at 1.
  rewrite Hall. by destruct (filter _ _).
Qed.

Lemma getTarget_first_key s path key rest v :
  decodes s → _getKeyPaths (cleanPath path) = key :: rest →
  registered s key v →
  (getTarget path s).1 = Ok (Some {| prefix := key; data := v |}).
Proof.
  intros Hdec Hpaths Hreg. destruct (getTarget_run s Hdec) as (routes & Hlook & ->).
  rewrite Hpaths, filter_cons, decide_True
    by (by apply (validRoute_registered s routes key Hlook) in Hreg).
  do 3 f_equal. destruct Hreg as (raw & Hraw & Hexp & _).
  by rewrite Hlook, Hraw, Hexp.
Qed.

Lemma get_registered s path v :
  (get path s).1 = Ok v → Js.truthy v = true → registered s (cleanPath path) v.
Proof.
  rewrite get_run. cbn [fst]. intros Hexp Hv.
  destruct (table s !! cleanPath path) as [raw|] eqn:Hk; [by exists raw|].
  rewrite (proj1 expand_absent) in Hexp. injection Hexp as <-. discriminate Hv.
Qed.

(** On a table with a value that does not expand, [getTarget] rejects. *)
Lemma getTarget_rejects path s :
  ¬ decodes s → ∃ e, (getTarget path s).1 = Throw e.
Proof.
  intros Hdec. apply map_not_Forall in Hdec; [|apply _].
  destruct Hdec as (k & raw & Hk & Hraw).
  destruct (expandRoutes_throws (map_to_list (table s)) ∅) as [e He].
  { apply Exists_exists. exists (k, raw). split; [by rewrite elem_of_map_to_list|].
    cbn [snd]. by destruct (isOk (_expand (Some raw))). }
  exists e. unfold getTarget, getAll, mbind, M_bind, ioredis.hgetall, lift.
  cbv zeta. fold (table s). by rewrite He.
Qed.

(** X20. The exact key wins, on a table whose values all expand.  For a
    path whose key holds a separator and is left unchanged by a second
    normalisation, and for which [get] resolves to a value that is not
    empty: where every value of the table expands, [getTarget] of the
    path resolves to that value, with the key of the path as the prefix,
    whichever records the table holds for the ancestors; where some value
    of the table does not expand, [getTarget] rejects.  So [getTarget]
    never resolves to anything but the record of the path. *)
Theorem getTarget_exact_match (path : string) (v : jsval) (s : redis) :
  cleanPath (cleanPath path) = cleanPath path →
  JsString.includes (cleanPath path) "/" = true →
  (get path s).1 = Ok v → Js.truthy v = true →
  (decodes s →
     (getTarget path s).1 = Ok (Some {| prefix := cleanPath path; data := v |}))
  ∧ (¬ decodes s → ∃ e, (getTarget path s).1 = Throw e)
  ∧ (∀ r, (getTarget path s).1 = Ok r →
          r = Some {| prefix := cleanPath path; data := v |}).
Proof.
  intros Hidem Hsep Hget Hv.
  assert (decodes s →
          (getTarget path s).1 = Ok (Some {| prefix := cleanPath path; data := v |}))
    as Hexact.
  { intros Hdec.
    destruct (getKeyPaths_head (cleanPath path)) as [rest Hpaths]; [by rewrite Hidem|].
    rewrite Hidem in Hpaths.
    eapply getTarget_first_key; [done..|]. by apply get_registered. }
  split; [exact Hexact|]. split; [apply getTarget_rejects|].
  intros r Hr. destruct (decide (decodes s)) as [Hdec|Hdec].
  - rewrite (Hexact Hdec) in Hr. by injection Hr as <-.
  - destruct (getTarget_rejects path s Hdec) as [e He]. by rewrite He in Hr.
Qed.

(** X21. What [getTarget] resolves to is in the table: the prefix is one
    of the ancestors of the path, the data is not empty, and [get] of the
    prefix resolves to the same data (for a prefix that normalisation
    leaves unchanged). *)
Theorem getTarget_agrees_with_get (path : string) (t : target) (s : redis) :
  decodes s →
  (getTarget path s).1 = Ok (Some t) →
  prefix t ∈ _getKeyPaths (cleanPath path)
  ∧ Js.truthy (data t) = true
  ∧ (cleanPath (prefix t) = prefix t → (get (prefix t) s).1 = Ok (data t)).
Proof.
  intros Hdec. destruct (getTarget_run s Hdec) as (routes & Hlook & ->).
  pose proof (filter_first (λ route, validRoute routes route = true)
                (_getKeyPaths (cleanPath path))) as Hfirst.
  destruct (filter _ _) as [|k ks]; [done|]. intros [= <-]. cbn [prefix data].
  destruct Hfirst as (before & after & Hpaths & _ & Hvalid).
  apply (validRoute_registered s routes k Hlook) in Hvalid
    as (raw & Hraw & Hexp & Hv).
  split; [rewrite Hpaths; apply elem_of_app; right; apply list_elem_of_here|].
  split; [done|]. intros Hk. by rewrite get_run, Hk, Hraw.
Qed.

(** X22. A route that was added resolves, on a table whose values all
    expand.  For a path whose key holds a separator and is left unchanged
    by a second normalisation, and a plain object that has no
    [last_activity] that counts and that JSON gives back from its own
    text: after [add] of the object under the path on such a table,
    [getTarget] of the path resolves to that object with the key of the
    path as the prefix. *)
Theorem add_then_getTarget (path : string) (item : list (string * jsval)) (s : redis) :
  decodes s →
  cleanPath (cleanPath path) = cleanPath path →
  JsString.includes (cleanPath path) "/" = true →
  JSON_stringify (JObj Plain item) ≠ "" →
  JSON_parse (JSON_stringify (JObj Plain item)) = Ok (JObj Plain item) →
  Js.truthy (default JUndefined (Js.obj_get "last_activity" item)) = false →
  (getTarget path (add path (JObj Plain item) s).2).1
  = Ok (Some {| prefix := cleanPath path; data := JObj Plain item |}).
Proof.
  intros Hdec Hidem Hsep Hne Hjson Hla.
  assert (_expand (Some (JSON_stringify (JObj Plain item))) = Ok (JObj Plain item))
    as Hexp.
  { rewrite expand_text, Hjson by done. by apply expandLastActivity_without. }
  assert (table (add path (JObj Plain item) s).2
          = <[cleanPath path := JSON_stringify (JObj Plain item)]> (table s)) as Htable.
  { rewrite add_run. cbn [snd]. by rewrite table_put, scrub_object. }
  destruct (getKeyPaths_head (cleanPath path)) as [rest Hpaths]; [by rewrite Hidem|].
  rewrite Hidem in Hpaths.
  eapply getTarget_first_key; [|done|].
  - unfold decodes. rewrite Htable. apply map_Forall_insert_2; [|done].
    by rewrite Hexp.
  - exists (JSON_stringify (JObj Plain item)).
    by rewrite Htable, lookup_insert_eq.
Qed.

End StoreMore.

(** ** More runs on the reference platform *)
Section MoreRuns.
Import Reference.
#[local] Existing Instance runtime.

Lemma add_overwrites_witness :
  table (add "/foo" (JObj Plain route_foo)
           (add "/foo/" (JObj Plain route_dated) server).2).2
  = table (add "/foo" (JObj Plain route_foo) server).2
  ∧ (add "/foo" (JObj Plain route_foo)
       (add "/foo/" (JObj Plain route_dated) server).2).1 = Ok 0.
Proof.
  apply (add_overwrites "/foo/" "/foo" (JObj Plain route_dated) (JObj Plain route_foo)
           server).
  vm_compute. reflexivity.
Defined.

Lemma add_falsy_witness :
  table (add "/foo/" JNull server).2 !! cleanPath "/foo/" = Some ""
  ∧ (get "/foo/" (add "/foo/" JNull server).2).1 = Ok JUndefined
  ∧ ∀ v, ¬ registered (add "/foo/" JNull server).2 (cleanPath "/foo/") v.
Proof. apply (add_falsy "/foo/" JNull server). reflexivity. Defined.

Lemma other_keys_untouched_witness :
  ioredis.hash_at "sessions" (db (add "/foo" (JObj Plain route_dated) shared_server).2)
  = ioredis.hash_at "sessions" (db shared_server)
  ∧ ioredis.hash_at "sessions" (db (remove "/foo" shared_server).2)
    = ioredis.hash_at "sessions" (db shared_server)
  ∧ ioredis.hash_at "sessions"
      (db (update "/foo" (JObj Plain route_dated) shared_server).2)
    = ioredis.hash_at "sessions" (db shared_server)
  ∧ ioredis.hash_at "sessions" (db (clear true shared_server).2)
    = ioredis.hash_at "sessions" (db shared_server).
Proof.
  apply (other_keys_untouched "sessions" "/foo" (JObj Plain route_dated) true
           shared_server).
  intros Hkey. vm_compute in Hkey. discriminate Hkey.
Defined.

Lemma getAll_snapshot_witness :
  ∃ routes,
    (getAll server).1 = Ok routes
    ∧ dom routes = dom (table server)
    ∧ (∀ k raw v, table server !! k = Some raw → _expand (Some raw) = Ok v →
         routes !! k = Some v)
    ∧ (∀ k, table server !! k = Some "" → routes !! k = Some JUndefined).
Proof. apply (getAll_snapshot server server_decodes). Defined.

Lemma getTarget_exact_match_witness :
  (getTarget "/foo/bar/" server).1
  = Ok (Some {| prefix := cleanPath "/foo/bar/"; data := JObj Plain route_foo_bar |}).
Proof.
  assert (cleanPath (cleanPath "/foo/bar/") = cleanPath "/foo/bar/") as Hkey
    by reflexivity.
  apply (proj1 (getTarget_exact_match "/foo/bar/" (JObj Plain route_foo_bar) server
                  Hkey eq_refl eq_refl eq_refl) server_decodes).
Defined.

Lemma getTarget_agrees_with_get_witness :
  "/foo/bar" ∈ _getKeyPaths (cleanPath "/foo/bar/baz")
  ∧ Js.truthy (JObj Plain route_foo_bar) = true
  ∧ (get "/foo/bar" server).1 = Ok (JObj Plain route_foo_bar).
Proof.
  destruct (getTarget_agrees_with_get "/foo/bar/baz"
              {| prefix := "/foo/bar"; data := JObj Plain route_foo_bar |}
              server server_decodes) as (Hin & Hdata & Hget).
  - vm_compute. reflexivity.
  - split; [exact Hin|]. split; [exact Hdata|]. apply Hget. vm_compute. reflexivity.
Defined.

Lemma add_then_getTarget_witness :
  (getTarget "/new/route/" (add "/new/route/" (JObj Plain route_foo) server).2).1
  = Ok (Some {| prefix := cleanPath "/new/route/"; data := JObj Plain route_foo |}).
Proof.
  apply (add_then_getTarget "/new/route/" route_foo server server_decodes).
  - vm_compute. reflexivity.
  - vm_compute. reflexivity.
  - intros Htext. vm_compute in Htext. discriminate Htext.
  - vm_compute. reflexivity.
  - reflexivity.
Defined.

End MoreRuns.

(** ** Examples *)
Example split_path : JsString.split "/foo/bar/xyz" "/" = [""; "foo"; "bar"; "xyz"].
Proof. reflexivity. Qed.

Example split_root : JsString.split "/" "/" = [""; ""].
Proof. reflexivity. Qed.

Example split_marker :
  JsString.split "cluster://secret@h1:1000,h2:2000" "cluster://"
  = [""; "secret@h1:1000,h2:2000"].
Proof. reflexivity. Qed.

Example split_trailing : JsString.split "a,b,," "," = ["a"; "b"; ""; ""].
Proof. reflexivity. Qed.

Example number_port : JsString.Number "1000" = JsString.Int 1000.
Proof. reflexivity. Qed.

(** The second parser rejects the same string at its second segment, which
    has no [@]; with a credential and an empty host it returns a node whose
    host is the empty string. *)
Example parse_per_node :
  ClusterPerNode.parseURL "cluster://secret@h1:1000,h2:2000" = Throw TypeError
  ∧ ClusterPerNode.parseURL "cluster://secret@"
    = Ok [ClusterPerNode.Node (Some "secret") "" None].
Proof. split; reflexivity. Qed.
